(** * The SQL service of Trilium ([src/services/sql.js])

    A shallow embedding of the data-access layer: the statement cache, the
    row helpers, the chunked executor, the mutation helpers and the
    transaction coordinator, written as computations of a state-and-exception
    monad over the module's variables ([dbConnection], [statementCache]), the
    continuation-local flags, the log, the caller's objects and the storage
    engine.  The engine, the notification channel and the clock are
    collaborators: they are a parameter ([Engine]) of the whole development,
    and each of their calls may return or raise. *)

From stdpp Require Import gmap strings list pretty.
From Stdlib Require Import ZArith Lia Ascii.

(** ** JavaScript data *)

Inductive Value :=
| VUndefined
| VNull
| VBool (b : bool)
| VNum (n : Z)
| VStr (s : string).

(** A plain object, as its own enumerable properties in enumeration order. *)
Abbreviation Obj := (list (string * Value)).
Abbreviation Row := (list (string * Value)).

(** What is bound to a statement: an array or an object of named values. *)
Inductive Params :=
| PArr (l : list Value)
| PObj (o : Obj).

(** A thrown error object. *)
Record Exn := { exn_name : string; exn_message : string; exn_stack : string }.

Inductive Res (A : Type) :=
| Ok (a : A)
| Raise (e : Exn).
Arguments Ok {A} a.
Arguments Raise {A} e.

(** The result of [Statement.run]. *)
Record RunInfo := { changes : Z; lastInsertRowid : Z }.

Abbreviation Conn := nat.
Abbreviation Handle := nat.
Abbreviation loc := nat.

Inductive StmtOp := OpRun | OpGet | OpAll.

(** The calls that leave the module, in the order they are made.  A
    statement call records the source text of its statement and its
    argument ([None] when the method is called without one, as the
    transaction verbs do). *)
Inductive Event :=
| EvPrepare (sql : string)
| EvStmt (op : StmtOp) (sql : string) (args : option Params)
| EvConnRun (sql : string) (params : Params)
| EvPing.

Inductive Level := LError | LInfo.

Global Instance Value_eq_dec : EqDecision Value.
Proof. solve_decision. Defined.
Global Instance Params_eq_dec : EqDecision Params.
Proof. solve_decision. Defined.
Global Instance StmtOp_eq_dec : EqDecision StmtOp.
Proof. solve_decision. Defined.
Global Instance Event_eq_dec : EqDecision Event.
Proof. solve_decision. Defined.
Global Instance Exn_eq_dec : EqDecision Exn.
Proof. solve_decision. Defined.

(** ** The collaborators *)

(** The storage engine ([prepare], and [run], [get], [all] of a statement,
    [run] of the connection), the notification channel of [ws.js], the clock
    and the runtime's rendering of the stack that [new Error(message)]
    captures.  [World] is their state. *)
Class Engine := {
  World : Type;
  eng_prepare : Conn → string → World → Res Handle * World;
  eng_run : Handle → option Params → World → Res RunInfo * World;
  eng_get : Handle → option Params → World → Res (option Row) * World;
  eng_all : Handle → option Params → World → Res (list Row) * World;
  eng_conn_run : Conn → string → Params → World → Res unit * World;
  ws_sendPingToAllClients : World → Res unit * World;
  eng_now : World → Z;
  stack_trace : string → string → string
}.

(** ** Strings and objects, as JavaScript has them *)

Definition newline : string := String (ascii_of_nat 10) EmptyString.

(** [array.join(sep)] on strings. *)
Definition join (sep : string) (l : list string) : string := String.concat sep l.

(** [s.includes(pat)] *)
Fixpoint includes (s pat : string) : bool :=
  String.prefix pat s ||
  match s with
  | EmptyString => false
  | String _ s' => includes s' pat
  end.

(** [query.replace(/\?\?\?/g, by)]: every occurrence of the marker, left to
    right, without overlap.  (The replacement is used with texts free of
    [$], which [replace] would interpret.) *)
Fixpoint replace_marker (query by_ : string) : string :=
  match query with
  | String "?"%char (String "?"%char (String "?"%char rest)) => by_ +:+ replace_marker rest by_
  | String c rest => String c (replace_marker rest by_)
  | EmptyString => EmptyString
  end.

(** [String(v)], used when a value becomes a property key.  A number is
    written in decimal digits, which is what JavaScript does for the
    integers below 10^21 in absolute value ([decimal]). *)
Definition to_string (v : Value) : string :=
  match v with
  | VUndefined => "undefined"
  | VNull => "null"
  | VBool true => "true"
  | VBool false => "false"
  | VNum n => pretty n
  | VStr s => s
  end.


Definition Object_keys (o : Obj) : list string := o.*1.
Definition Object_values (o : Obj) : list Value := o.*2.

(** [o[k]] *)
Fixpoint obj_get (o : Obj) (k : string) : Value :=
  match o with
  | [] => VUndefined
  | (k', v) :: o' => if decide (k' = k) then v else obj_get o' k
  end.

(** [o[k] = v]: an existing property keeps its place, a new one comes last. *)
Fixpoint obj_set (o : Obj) (k : string) (v : Value) : Obj :=
  match o with
  | [] => [(k, v)]
  | (k', v') :: o' =>
      if decide (k' = k) then (k', v) :: o' else (k', v') :: obj_set o' k v
  end.

(** [o[keys[i]]] where [keys[i]] may be [undefined], which reads the
    property named ["undefined"]. *)
Definition obj_get_at (o : Obj) (k : option string) : Value :=
  obj_get o (default "undefined" k).

Section Computations.

Context `{E : Engine}.

(** ** The state of the module and of its surroundings *)

(** [dbConnection] and [statementCache] are the module's variables.
    [cls_ns] is the continuation-local namespace of [cls.js], [heap] holds
    the objects of the callers that the module receives by reference, [log]
    is what [log.js] has been given, [world] is the state of the
    collaborators and [trace] lists the calls made to them. *)
Record State := {
  dbConnection : option Conn;
  statementCache : gmap string Handle;
  cls_ns : gmap string bool;
  heap : gmap loc Obj;
  log : list (Level * string);
  world : World;
  trace : list Event
}.

Definition with_dbConnection (c : option Conn) (s : State) : State :=
  {| dbConnection := c; statementCache := statementCache s; cls_ns := cls_ns s;
     heap := heap s; log := log s; world := world s; trace := trace s |}.
Definition with_statementCache (m : gmap string Handle) (s : State) : State :=
  {| dbConnection := dbConnection s; statementCache := m; cls_ns := cls_ns s;
     heap := heap s; log := log s; world := world s; trace := trace s |}.
Definition with_cls_ns (m : gmap string bool) (s : State) : State :=
  {| dbConnection := dbConnection s; statementCache := statementCache s; cls_ns := m;
     heap := heap s; log := log s; world := world s; trace := trace s |}.
Definition with_heap (h : gmap loc Obj) (s : State) : State :=
  {| dbConnection := dbConnection s; statementCache := statementCache s; cls_ns := cls_ns s;
     heap := h; log := log s; world := world s; trace := trace s |}.
Definition with_log (l : list (Level * string)) (s : State) : State :=
  {| dbConnection := dbConnection s; statementCache := statementCache s; cls_ns := cls_ns s;
     heap := heap s; log := l; world := world s; trace := trace s |}.
Definition with_call (e : Event) (w : World) (s : State) : State :=
  {| dbConnection := dbConnection s; statementCache := statementCache s; cls_ns := cls_ns s;
     heap := heap s; log := log s; world := w; trace := trace s ++ [e] |}.

(** ** Computations: state passing with exceptions *)

Definition M (A : Type) : Type := State → Res A * State.

Definition ret {A} (a : A) : M A := fun s => (Ok a, s).
Definition throw {A} (e : Exn) : M A := fun s => (Raise e, s).
Definition bind {A B} (m : M A) (k : A → M B) : M B :=
  fun s => match m s with
           | (Ok a, s') => k a s'
           | (Raise e, s') => (Raise e, s')
           end.

(** [try { m } catch (e) { h e }] *)
Definition try_catch {A} (m : M A) (h : Exn → M A) : M A :=
  fun s => match m s with
           | (Ok a, s') => (Ok a, s')
           | (Raise e, s') => h e s'
           end.

(** [try { m } finally { f }]: [f] runs on both exits, and an error of [f]
    replaces the outcome of [m]. *)
Definition try_finally {A} (m : M A) (f : M unit) : M A :=
  fun s => match m s with
           | (r, s') =>
               match f s' with
               | (Ok _, s'') => (r, s'')
               | (Raise e, s'') => (Raise e, s'')
               end
           end.

End Computations.

Declare Scope sql_scope.
Delimit Scope sql_scope with sql.
Notation "'let*' x := m 'in' k" := (bind m (fun x => k))
  (at level 10, x name, m at level 100, k at level 200) : sql_scope.
Notation "m ;; k" := (bind m (fun _ => k))
  (at level 100, k at level 200, right associativity) : sql_scope.
Open Scope sql_scope.

Section Sql.

Context `{E : Engine}.

(** [for (const x of l) { body x }] *)
Fixpoint for_each {A} (l : list A) (body : A → M unit) : M unit :=
  match l with
  | [] => ret tt
  | x :: l' => body x ;; for_each l' body
  end.

(** *** Errors of the runtime *)

(** [new Error(message)], with the stack captured where it is made. *)
Definition new_Error (message : string) : Exn :=
  {| exn_name := "Error"; exn_message := message;
     exn_stack := stack_trace "Error" message |}.

(** The [TypeError] the runtime raises for a property of [undefined] or a
    call of what is not a function. *)
Definition TypeError (message : string) : Exn :=
  {| exn_name := "TypeError"; exn_message := message;
     exn_stack := stack_trace "TypeError" message |}.

(** *** The collaborators' calls *)

(** A call to a collaborator: it is recorded, the world moves on, and the
    call returns or raises. *)
Definition call {A} (e : Event) (f : World → Res A * World) : M A :=
  fun s => let (r, w) := f (world s) in (r, with_call e w s).

(** [Date.now()] *)
Definition Date_now : M Z := fun s => (Ok (eng_now (world s)), s).

(** [log.error(msg)] and [log.info(msg)] *)
Definition log_error (msg : string) : M unit :=
  fun s => (Ok tt, with_log (log s ++ [(LError, msg)]) s).
Definition log_info (msg : string) : M unit :=
  fun s => (Ok tt, with_log (log s ++ [(LInfo, msg)]) s).

(** [require('./ws.js').sendPingToAllClients()] *)
Definition sendPingToAllClients : M unit := call EvPing ws_sendPingToAllClients.

(** Modelled from the spec: [cls.js] is not among the sources.  The spec
    has the two flags [isTransactional] and [isInTransaction] "held in a
    call-scoped context", visible to every nested call of one call chain;
    [cls.get(key)] reads the namespace of the chain, a key never set being
    [undefined] (falsy), and [cls.set(key, value)] and
    [cls.namespace.set(key, value)] both write it. *)
Definition cls_get (key : string) : M bool :=
  fun s => (Ok (default false (cls_ns s !! key)), s).
Definition cls_set (key : string) (value : bool) : M unit :=
  fun s => (Ok tt, with_cls_ns (<[key := value]> (cls_ns s)) s).

(** *** The caller's objects *)

(** Reading the object behind a reference; what a call on [undefined]
    raises when there is none. *)
Definition deref (rec : loc) : M Obj :=
  fun s => match heap s !! rec with
           | Some o => (Ok o, s)
           | None => (Raise (TypeError "Cannot convert undefined or null to object"), s)
           end.

(** [rec[idx]] and [rec[idx] = v] on the object behind [rec]. *)
Definition prop_get (rec : loc) (idx : string) : M Value :=
  let* o := deref rec in ret (obj_get o idx).
Definition prop_set (rec : loc) (idx : string) (v : Value) : M unit :=
  let* o := deref rec in
  fun s => (Ok tt, with_heap (<[rec := obj_set o idx v]> (heap s)) s).

(** ** The module *)

Definition setDbConnection (connection : option Conn) : M unit :=
  fun s => (Ok tt, with_dbConnection connection s).

Definition get_dbConnection : M (option Conn) := fun s => (Ok (dbConnection s), s).

(** *** The statement cache *)

(** The names every plain object inherits from [Object.prototype]:
    [statementCache] is [{}], and [sql in statementCache] looks through the
    prototype chain. *)
Definition Object_prototype_names : list string :=
  ["constructor"; "__defineGetter__"; "__defineSetter__"; "hasOwnProperty";
   "__lookupGetter__"; "__lookupSetter__"; "isPrototypeOf";
   "propertyIsEnumerable"; "toString"; "valueOf"; "__proto__"; "toLocaleString"].

(** What [stmt(sql)] hands back: a compiled statement, with its source
    text, or (for an inherited name) something that is no statement. *)
Inductive Stmt :=
| Compiled (source : string) (h : Handle)
| NotAStatement.

(** [sql in statementCache] *)
Definition in_statementCache (sql : string) : M bool :=
  fun s => (Ok (bool_decide (is_Some (statementCache s !! sql))
                || bool_decide (sql ∈ Object_prototype_names)), s).

(** [statementCache[sql] = h] *)
Definition statementCache_set (sql : string) (h : Handle) : M unit :=
  fun s => (Ok tt, with_statementCache (<[sql := h]> (statementCache s)) s).

(** [statementCache[sql]] *)
Definition statementCache_get (sql : string) : M Stmt :=
  fun s => (Ok match statementCache s !! sql with
               | Some h => Compiled sql h
               | None => NotAStatement
               end, s).

(** [dbConnection.prepare(sql)] *)
Definition dbConnection_prepare (sql : string) : M Handle :=
  let* connection := get_dbConnection in
  match connection with
  | Some c => call (EvPrepare sql) (eng_prepare c sql)
  | None => throw (TypeError "Cannot read property 'prepare' of undefined")
  end.

Definition stmt (sql : string) : M Stmt :=
  let* cached := in_statementCache sql in
  (if negb cached then
     let* h := dbConnection_prepare sql in
     statementCache_set sql h
   else ret tt) ;;
  statementCache_get sql.

(** [st.run(args)], [st.get(params)] and [st.all(params)] *)
Definition stmt_run (st : Stmt) (args : option Params) : M RunInfo :=
  match st with
  | Compiled sql h => call (EvStmt OpRun sql args) (eng_run h args)
  | NotAStatement => throw (TypeError "stmt(...).run is not a function")
  end.
Definition stmt_get (st : Stmt) (params : Params) : M (option Row) :=
  match st with
  | Compiled sql h => call (EvStmt OpGet sql (Some params)) (eng_get h (Some params))
  | NotAStatement => throw (TypeError "stmt(...).get is not a function")
  end.
Definition stmt_all (st : Stmt) (params : Params) : M (list Row) :=
  match st with
  | Compiled sql h => call (EvStmt OpAll sql (Some params)) (eng_all h (Some params))
  | NotAStatement => throw (TypeError "stmt(...).all is not a function")
  end.

Definition beginTransaction : M RunInfo :=
  let* st := stmt "BEGIN" in stmt_run st None.

Definition commit : M RunInfo :=
  let* st := stmt "COMMIT" in stmt_run st None.

Definition rollback : M RunInfo :=
  let* st := stmt "ROLLBACK" in stmt_run st None.

(** *** Query wrapping *)

(** [wrap(func, query)]: the guard on the connection, the timing of the
    call with its slow-query log, and the error raised anew from here. *)
Definition wrap {A} (func : M A) (query : string) : M A :=
  let* connection := get_dbConnection in
  match connection with
  | None => throw (new_Error "DB connection not initialized yet")
  | Some _ =>
      let thisError := new_Error "" in
      try_catch
        (let* startTimestamp := Date_now in
         let* result := func in
         let* now := Date_now in
         let milliseconds := (now - startTimestamp)%Z in
         (if bool_decide (300 ≤ milliseconds)%Z then
            if includes query "WITH RECURSIVE" then
              log_info ("Slow recursive query took " +:+ pretty milliseconds +:+ "ms.")
            else
              log_info ("Slow query took " +:+ pretty milliseconds +:+ "ms: " +:+ query)
          else ret tt) ;;
         ret result)
        (fun e =>
           log_error ("Error executing query. Inner exception: "
                      +:+ exn_stack e +:+ exn_stack thisError) ;;
           throw {| exn_name := exn_name thisError;
                    exn_message := exn_stack e;
                    exn_stack := exn_stack thisError |})
  end.

(** *** Reading rows *)

Definition getRow (query : string) (params : Params) : M (option Row) :=
  wrap (let* st := stmt query in stmt_get st params) query.

Definition getRows (query : string) (params : Params) : M (list Row) :=
  wrap (let* st := stmt query in stmt_all st params) query.

(** [None] is [null]. *)
Definition getRowOrNull (query : string) (params : Params) : M (option Row) :=
  let* all := getRows query params in
  ret (if bool_decide (0 < length all) then all !! 0 else None).

Definition getValue (query : string) (params : Params) : M Value :=
  let* row := getRowOrNull query params in
  match row with
  | None => ret VNull
  | Some row => ret (obj_get_at row (Object_keys row !! 0))
  end.

Definition PARAM_LIMIT : nat := 900.

(** [curParamsObj]: [param1], [param2], ... assigned in turn. *)
Definition curParamsObj_of (curParams : list Value) : Obj :=
  foldl (fun obj '(j, param) => obj_set obj ("param" +:+ pretty j) param)
        [] (zip (seq 1 (length curParams)) curParams).

(** [questionMarks]: [:param1,:param2,...], one for each parameter. *)
Definition questionMarks_of (curParams : list Value) : string :=
  join "," ((fun i => ":param" +:+ pretty i) <$> seq 1 (length curParams)).

(** The loop of [getManyRows].  Every round takes at least one parameter
    away, so the length of the list bounds the number of rounds. *)
Fixpoint getManyRows_loop (rounds : nat) (query : string)
    (params : list Value) (results : list Row) : M (list Row) :=
  match rounds with
  | 0 => ret results
  | S rounds' =>
      if bool_decide (0 < length params) then
        let curParams := take (length params `min` PARAM_LIMIT) params in
        let params' := drop (length curParams) params in
        let curQuery := replace_marker query (questionMarks_of curParams) in
        let* rows := getRows curQuery (PObj (curParamsObj_of curParams)) in
        getManyRows_loop rounds' query params' (results ++ rows)
      else ret results
  end.

Definition getManyRows (query : string) (params : list Value) : M (list Row) :=
  getManyRows_loop (length params) query params [].

(** The object that [getMap] builds: its own properties, and whether it
    still has the prototype that [{}] gave it. *)
Record MapObject := {
  own_properties : gmap string Value;
  has_prototype : bool
}.

(** [{}] *)
Definition empty_object : MapObject :=
  {| own_properties := ∅; has_prototype := true |}.

(** [map[k] = v].  While the object has its prototype, the name
    [__proto__] is the accessor it inherits: assigning [null] to it takes
    the prototype away, assigning any other value of a row (none is an
    object) does nothing, and neither makes a property.  Once the
    prototype is gone [__proto__] is a name like any other. *)
Definition map_set (map : MapObject) (k : string) (v : Value) : MapObject :=
  if bool_decide (k = "__proto__") && has_prototype map then
    match v with
    | VNull => {| own_properties := own_properties map; has_prototype := false |}
    | _ => map
    end
  else {| own_properties := <[k := v]> (own_properties map);
          has_prototype := has_prototype map |}.

Definition getMap (query : string) (params : Params) : M MapObject :=
  let* results := getRows query params in
  ret (foldl (fun map row =>
                let keys := Object_keys row in
                map_set map (to_string (obj_get_at row (keys !! 0)))
                        (obj_get_at row (keys !! 1)))
             empty_object results).

Definition getColumn (query : string) (params : Params) : M (list Value) :=
  let* result := getRows query params in
  match result with
  | [] => ret []
  | row0 :: _ =>
      let key := Object_keys row0 !! 0 in
      ret ((fun row => obj_get_at row key) <$> result)
  end.

(** *** The transaction coordinator *)

Definition startTransactionIfNecessary : M unit :=
  let* isTransactional := cls_get "isTransactional" in
  if negb isTransactional then ret tt
  else
    let* isInTransaction := cls_get "isInTransaction" in
    if isInTransaction then ret tt
    else
      cls_set "isInTransaction" true ;;
      beginTransaction ;;
      ret tt.

(** The three blocks of [transactional]: [try], [catch (e)] and [finally]. *)
Definition transactional_try {A} (func : M A) : M A :=
  let* ret_ := func in
  let* isInTransaction := cls_get "isInTransaction" in
  (if isInTransaction then
     commit ;;
     sendPingToAllClients
   else ret tt) ;;
  ret ret_.

Definition transactional_catch {A} (e : Exn) : M A :=
  let* isInTransaction := cls_get "isInTransaction" in
  (if isInTransaction then rollback ;; ret tt else ret tt) ;;
  throw e.

Definition transactional_finally : M unit :=
  cls_set "isTransactional" false ;;
  let* isInTransaction := cls_get "isInTransaction" in
  if isInTransaction then cls_set "isInTransaction" false else ret tt.

Definition transactional {A} (func : M A) : M A :=
  let* isTransactional := cls_get "isTransactional" in
  if isTransactional then func
  else
    cls_set "isTransactional" true ;;
    try_finally
      (try_catch (transactional_try func) transactional_catch)
      transactional_finally.

(** *** Writing *)

Definition execute (query : string) (params : Params) : M RunInfo :=
  startTransactionIfNecessary ;;
  wrap (let* st := stmt query in stmt_run st (Some params)) query.

(** [dbConnection.run(query, params)] *)
Definition executeWithoutTransaction (query : string) (params : Params) : M unit :=
  let* connection := get_dbConnection in
  match connection with
  | Some c => call (EvConnRun query params) (eng_conn_run c query params)
  | None => throw (TypeError "Cannot read property 'run' of undefined")
  end.

(** The rows of [getManyRows] are not returned. *)
Definition executeMany (query : string) (params : list Value) : M unit :=
  startTransactionIfNecessary ;;
  getManyRows query params ;;
  ret tt.

(** [stmt.run(query)]: [stmt] is the function of the statement cache, it
    has no property [run], and calling [undefined] raises. *)
Definition stmt_function_run (query : string) : M RunInfo :=
  throw (TypeError "stmt.run is not a function").

Definition executeScript (query : string) : M RunInfo :=
  startTransactionIfNecessary ;;
  wrap (stmt_function_run query) query.

(** The text that [insert] builds from the keys of its record. *)
Definition insert_query (tableName : string) (keys : list string) (replace : bool) :
    string :=
  let columns := join ", " keys in
  let questionMarks := join ", " ((fun p => "?") <$> keys) in
  "INSERT " +:+ (if replace then "OR REPLACE" else "") +:+ " INTO "
  +:+ tableName +:+ "(" +:+ columns +:+ ") VALUES (" +:+ questionMarks +:+ ")".

(** [insert] only reads its record, which is given here by value; the
    result is [undefined] or the row identifier. *)
Definition insert (tableName : string) (rec : Obj) (replace : bool) : M Value :=
  let keys := Object_keys rec in
  if bool_decide (length keys = 0) then
    log_error ("Can't insert empty object into table " +:+ tableName) ;;
    ret VUndefined
  else
    let query := insert_query tableName keys replace in
    let* res := execute query (PArr (Object_values rec)) in
    ret (VNum (lastInsertRowid res)).

Definition replace (tableName : string) (rec : Obj) : M Value :=
  insert tableName rec true.

(** The text that [upsert] builds from the keys of its record. *)
Definition upsert_query (tableName primaryKey : string) (keys : list string) : string :=
  let columns := join ", " keys in
  let questionMarks := join ", " ((fun colName => "@" +:+ colName) <$> keys) in
  let updateMarks :=
    join ", " ((fun colName => colName +:+ " = @" +:+ colName) <$> keys) in
  "INSERT INTO " +:+ tableName +:+ " (" +:+ columns +:+ ") VALUES ("
  +:+ questionMarks +:+ ") " +:+ newline
  +:+ "                   ON CONFLICT (" +:+ primaryKey
  +:+ ") DO UPDATE SET " +:+ updateMarks.

(** The loop of [upsert] over the fields of the caller's record. *)
Definition upsert_normalize (rec : loc) (idx : string) : M unit :=
  let* v := prop_get rec idx in
  match v with
  | VBool b => prop_set rec idx (VNum (if b then 1 else 0))
  | _ => ret tt
  end.

(** [upsert] writes into its record, which is given by reference; the
    engine binds the object as it is when [execute] is reached. *)
Definition upsert (tableName primaryKey : string) (rec : loc) : M unit :=
  let* o := deref rec in
  let keys := Object_keys o in
  if bool_decide (length keys = 0) then
    log_error ("Can't upsert empty object into table " +:+ tableName)
  else
    let query := upsert_query tableName primaryKey keys in
    for_each keys (upsert_normalize rec) ;;
    let* bound := deref rec in
    execute query (PObj bound) ;;
    ret tt.

End Sql.

(** ** A small engine to run the module on

    Statements are numbered in the order they are prepared; the world is
    the list of their sources.  [run] fails on the statements whose source
    is in [rejected] and [all] answers one row that counts the values it was
    given; the notification raises unless [ping_ok]; the clock stands
    still. *)

Definition sample_error (message : string) : Exn :=
  {| exn_name := "SqliteError"; exn_message := message; exn_stack := "SqliteError: " +:+ message |}.

Definition params_size (args : option Params) : nat :=
  match args with
  | None => 0
  | Some (PArr l) => length l
  | Some (PObj o) => length o
  end.

Definition sample_engine (rejected : list string) (ping_ok : bool) : Engine :=
  {| World := list string;
     eng_prepare := fun _ sql w => (Ok (length w), w ++ [sql]);
     eng_run := fun h _ w =>
       match w !! h with
       | Some sql =>
           if bool_decide (sql ∈ rejected) then (Raise (sample_error sql), w)
           else (Ok {| changes := 1; lastInsertRowid := 7 |}, w)
       | None => (Raise (sample_error "no such statement"), w)
       end;
     eng_get := fun _ _ w => (Ok None, w);
     eng_all := fun _ args w => (Ok [[("n", VNum (Z.of_nat (params_size args)))]], w);
     eng_conn_run := fun _ _ _ w => (Ok tt, w);
     ws_sendPingToAllClients := fun w =>
       if ping_ok then (Ok tt, w) else (Raise (sample_error "ping"), w);
     eng_now := fun _ => 0%Z;
     stack_trace := fun name message => name +:+ ": " +:+ message |}.

(** The same engine with a compiler that refuses the texts in [invalid]:
    [prepare] raises on them. *)
Definition strict_engine (invalid : list string) : Engine :=
  {| World := list string;
     eng_prepare := fun _ sql w =>
       if bool_decide (sql ∈ invalid) then (Raise (sample_error sql), w)
       else (Ok (length w), w ++ [sql]);
     eng_run := fun h _ w =>
       match w !! h with
       | Some sql => (Ok {| changes := 1; lastInsertRowid := 7 |}, w)
       | None => (Raise (sample_error "no such statement"), w)
       end;
     eng_get := fun _ _ w => (Ok None, w);
     eng_all := fun _ args w => (Ok [[("n", VNum (Z.of_nat (params_size args)))]], w);
     eng_conn_run := fun _ _ _ w => (Ok tt, w);
     ws_sendPingToAllClients := fun w => (Ok tt, w);
     eng_now := fun _ => 0%Z;
     stack_trace := fun name message => name +:+ ": " +:+ message |}.

(** The module at start-up, with the connection set or not yet. *)
Definition start `{E : Engine} (connection : option Conn) (w : World) : State :=
  {| dbConnection := connection; statementCache := ∅; cls_ns := ∅; heap := ∅;
     log := []; world := w; trace := [] |}.

(** ** Callers of the module

    What a caller can do: compute, raise and catch, and call the exported
    functions of the module (with [transactional] around callers' code
    again), and read or write its own objects. *)

Definition store_object `{E : Engine} (l : loc) (o : Obj) : M unit :=
  fun s => (Ok tt, with_heap (<[l := o]> (heap s)) s).

Inductive client `{E : Engine} : ∀ A : Type, M A → Prop :=
| client_ret A (a : A) : client A (ret a)
| client_throw A (e : Exn) : client A (throw e)
| client_bind A B (m : M A) (k : A → M B) :
    client A m → (∀ a, client B (k a)) → client B (bind m k)
| client_try_catch A (m : M A) (h : Exn → M A) :
    client A m → (∀ e, client A (h e)) → client A (try_catch m h)
| client_try_finally A (m : M A) (f : M unit) :
    client A m → client unit f → client A (try_finally m f)
| client_deref l : client _ (deref l)
| client_store_object l o : client _ (store_object l o)
| client_setDbConnection c : client _ (setDbConnection c)
| client_insert t rec r : client _ (insert t rec r)
| client_replace t rec : client _ (replace t rec)
| client_upsert t pk rec : client _ (upsert t pk rec)
| client_getValue q p : client _ (getValue q p)
| client_getRow q p : client _ (getRow q p)
| client_getRowOrNull q p : client _ (getRowOrNull q p)
| client_getRows q p : client _ (getRows q p)
| client_getManyRows q p : client _ (getManyRows q p)
| client_getMap q p : client _ (getMap q p)
| client_getColumn q p : client _ (getColumn q p)
| client_execute q p : client _ (execute q p)
| client_executeWithoutTransaction q p : client _ (executeWithoutTransaction q p)
| client_executeMany q p : client _ (executeMany q p)
| client_executeScript q : client _ (executeScript q)
| client_transactional A (m : M A) : client A m → client A (transactional m).
Arguments client {E A} m.

(** ** The transaction verbs in a trace *)

Definition BEGIN : Event := EvStmt OpRun "BEGIN" None.
Definition COMMIT : Event := EvStmt OpRun "COMMIT" None.
Definition ROLLBACK : Event := EvStmt OpRun "ROLLBACK" None.

(** How many times [e] occurs in [ev]. *)
Definition count (e : Event) (ev : list Event) : nat :=
  length (filter (λ x, x = e) ev).

(** The flags of the coordinator, as [cls.get] reads them. *)
Definition flag `{E : Engine} (key : string) (s : State) : bool :=
  default false (cls_ns s !! key).
Definition isTransactional `{E : Engine} : State → bool := flag "isTransactional".
Definition isInTransaction `{E : Engine} : State → bool := flag "isInTransaction".

(** The state with both flags as the outermost [transactional] leaves
    them. *)
Definition cleared `{E : Engine} (s : State) : State :=
  let s1 := with_cls_ns (<["isTransactional" := false]> (cls_ns s)) s in
  if isInTransaction s1
  then with_cls_ns (<["isInTransaction" := false]> (cls_ns s1)) s1
  else s1.

(** The state in which the outermost [transactional] runs its function. *)
Definition entered `{E : Engine} (s : State) : State :=
  with_cls_ns (<["isTransactional" := true]> (cls_ns s)) s.

(** ** Relations between a state, the calls made from it and the state
    reached

    [R s ev s'] is meant for a computation that goes from [s] to [s'] and
    makes the calls [ev] on the way; [respects R m] says that every run of
    [m] adds its calls at the end of the trace and is in the relation. *)
Definition respects `{E : Engine} (R : State → list Event → State → Prop)
    {A} (m : M A) : Prop :=
  ∀ s r s', m s = (r, s') → ∃ ev, trace s' = trace s ++ ev ∧ R s ev s'.

(** Calls are only ever added to the trace. *)
Definition extends `{E : Engine} {A} (m : M A) : Prop := respects (λ _ _ _, True) m.

(** The calls that are none of the coordinator's. *)
Definition quiet (e : Event) : Prop :=
  e ≠ BEGIN ∧ e ≠ COMMIT ∧ e ≠ ROLLBACK ∧ e ≠ EvPing.

(** What holds of a caller that runs inside a transactional scope: the
    scope stays marked, the caller issues no [COMMIT], no [ROLLBACK] and no
    notification, at most one [BEGIN] and none once the transaction is
    open, and a transaction once open stays open. *)
Definition in_scope `{E : Engine} (s : State) (ev : list Event) (s' : State) : Prop :=
  isTransactional s = true →
  isTransactional s' = true
  ∧ count COMMIT ev = 0 ∧ count ROLLBACK ev = 0 ∧ count EvPing ev = 0
  ∧ count BEGIN ev ≤ 1
  ∧ (isInTransaction s = true → count BEGIN ev = 0 ∧ isInTransaction s' = true)
  ∧ (count BEGIN ev = 1 → isInTransaction s' = true).

(** One round of the loop of [upsert] on an object: the field [idx], if it
    holds a boolean, is overwritten with 1 or 0. *)
Definition normalize_at (o : Obj) (idx : string) : Obj :=
  match obj_get o idx with
  | VBool b => obj_set o idx (VNum (if b then 1 else 0))
  | _ => o
  end.

(** The record the spec describes for [upsert]: every boolean value
    replaced with 1 or 0, every other field as it was. *)
Definition normalized_value (v : Value) : Value :=
  match v with
  | VBool true => VNum 1
  | VBool false => VNum 0
  | _ => v
  end.
Definition normalized (o : Obj) : Obj := prod_map id normalized_value <$> o.

(** The calls of the row helpers: preparing a text, and [get] and [all]
    of a statement. *)
Definition is_read_call (e : Event) : Prop :=
  match e with
  | EvPrepare _ | EvStmt OpGet _ _ | EvStmt OpAll _ _ => True
  | _ => False
  end.

(** A computation that leaves the flags as they are and makes read calls
    only. *)
Definition reads_only `{E : Engine} (s : State) (ev : list Event) (s' : State) : Prop :=
  cls_ns s' = cls_ns s ∧ Forall is_read_call ev.

(** A computation that leaves the flags as they are. *)
Definition keeps_cls `{E : Engine} (s : State) (ev : list Event) (s' : State) : Prop :=
  cls_ns s' = cls_ns s.

(** [m], run from [s], changes no flag and issues no [BEGIN] (and no [run]
    of any statement). *)
Definition never_begins `{E : Engine} {A} (m : M A) (s : State) : Prop :=
  cls_ns (m s).2 = cls_ns s ∧
  ∃ ev, trace (m s).2 = trace s ++ ev ∧ Forall is_read_call ev ∧ count BEGIN ev = 0.

(** The state in which the first write of a scope calls
    [beginTransaction]. *)
Definition opened `{E : Engine} (s : State) : State :=
  with_cls_ns (<["isInTransaction" := true]> (cls_ns s)) s.

(** [m], run from [s], first sets [isInTransaction] and makes the calls of
    [beginTransaction], and leaves the flag set. *)
Definition begins_first `{E : Engine} {A} (m : M A) (s : State) : Prop :=
  isInTransaction (m s).2 = true ∧
  ∃ ev, trace (m s).2 = trace (beginTransaction (opened s)).2 ++ ev.

(** The cache only grows, and a text it holds is not prepared again. *)
Definition cache_kept `{E : Engine} (s : State) (ev : list Event) (s' : State) : Prop :=
  ∀ sql h, statementCache s !! sql = Some h →
           statementCache s' !! sql = Some h ∧ count (EvPrepare sql) ev = 0.

(** The executions [all] among the calls [ev]: the text and what was
    bound, in order. *)
Definition all_calls (ev : list Event) : list (string * Params) :=
  omap (λ e, match e with
             | EvStmt OpAll q (Some p) => Some (q, p)
             | _ => None
             end) ev.

(** The names [param1], [param2], ... of the chunked executor. *)
Definition param_name (j : nat) : string := "param" +:+ pretty j.

(** Calls among which there is none of the coordinator's. *)
Definition silent (ev : list Event) : Prop :=
  count BEGIN ev = 0 ∧ count COMMIT ev = 0 ∧ count ROLLBACK ev = 0
  ∧ count EvPing ev = 0.

(** [e] executes the text [sql]: it is [run], [get] or [all] of the
    statement of that text, with an argument or without, or [run] of the
    connection on it. *)
Definition executes (sql : string) (e : Event) : Prop :=
  match e with
  | EvStmt _ q _ | EvConnRun q _ => q = sql
  | _ => False
  end.

Global Instance executes_dec sql e : Decision (executes sql e).
Proof. destruct e; simpl; apply _. Defined.

(** How many times the text [sql] is executed among the calls [ev]. *)
Definition executions (sql : string) (ev : list Event) : nat :=
  length (filter (executes sql) ev).

(** The same, leaving out the calls [run()] of the statement without an
    argument, which is how [beginTransaction], [commit] and [rollback] run
    theirs: what is counted was handed to an exported function by a
    caller, each of them passing an argument to the statement or going to
    the connection. *)
Definition own_executions (sql : string) (ev : list Event) : nat :=
  length (filter (λ e, executes sql e ∧ e ≠ EvStmt OpRun sql None) ev).





(** * Properties *)

(** ** Running a computation step by step *)

Section Steps.
Context `{E : Engine}.

Lemma bind_ok {A B} (m : M A) (k : A → M B) s a s1 :
  m s = (Ok a, s1) → bind m k s = k a s1.
Proof. unfold bind. by intros ->. Qed.

Lemma bind_raise {A B} (m : M A) (k : A → M B) s e s1 :
  m s = (Raise e, s1) → bind m k s = (Raise e, s1).
Proof. unfold bind. by intros ->. Qed.

Lemma bind_inv {A B} (m : M A) (k : A → M B) s r s' :
  bind m k s = (r, s') →
  (∃ a s1, m s = (Ok a, s1) ∧ k a s1 = (r, s')) ∨
  (∃ e, m s = (Raise e, s') ∧ r = Raise e).
Proof.
  unfold bind. destruct (m s) as [[a|e] s1]; intros H.
  - left. eauto.
  - right. inversion H; subst. eauto.
Qed.

Lemma try_catch_inv {A} (m : M A) (h : Exn → M A) s r s' :
  try_catch m h s = (r, s') →
  (∃ a, m s = (Ok a, s') ∧ r = Ok a) ∨
  (∃ e s1, m s = (Raise e, s1) ∧ h e s1 = (r, s')).
Proof.
  unfold try_catch. destruct (m s) as [[a|e] s1]; intros H.
  - left. inversion H; subst. eauto.
  - right. eauto.
Qed.

Lemma try_finally_inv {A} (m : M A) (f : M unit) s r s' :
  try_finally m f s = (r, s') →
  ∃ r1 s1 r2, m s = (r1, s1) ∧ f s1 = (r2, s') ∧
              r = match r2 with Ok _ => r1 | Raise e => Raise e end.
Proof.
  unfold try_finally. destruct (m s) as [r1 s1].
  destruct (f s1) as [[u|e] s2] eqn:Hf; intros H; inversion H; subst; eauto 10.
Qed.

End Steps.

(** ** Computations that respect a relation

    A relation that holds of no call and composes along a sequence holds of
    a whole computation as soon as it holds of its steps. *)

Section Respects.
Context `{E : Engine}.
Variable R : State → list Event → State → Prop.

Hypothesis R_nil : ∀ s, R s [] s.
Hypothesis R_app : ∀ s1 ev1 s2 ev2 s3,
  R s1 ev1 s2 → R s2 ev2 s3 → R s1 (ev1 ++ ev2) s3.

Lemma respects_ret {A} (a : A) : respects R (ret a).
Proof. intros s r s' H. inversion H; subst. exists []. by rewrite app_nil_r. Qed.

Lemma respects_throw {A} e : respects R (@throw _ A e).
Proof. intros s r s' H. inversion H; subst. exists []. by rewrite app_nil_r. Qed.

Lemma respects_bind {A B} (m : M A) (k : A → M B) :
  respects R m → (∀ a, respects R (k a)) → respects R (bind m k).
Proof.
  intros Hm Hk s r s' H.
  destruct (bind_inv _ _ _ _ _ H) as [(a & s1 & H1 & H2)|(e & H1 & ->)].
  - destruct (Hm _ _ _ H1) as (ev1 & T1 & R1).
    destruct (Hk a _ _ _ H2) as (ev2 & T2 & R2).
    exists (ev1 ++ ev2). split; [by rewrite T2, T1, app_assoc | eauto].
  - eauto.
Qed.

Lemma respects_try_catch {A} (m : M A) (h : Exn → M A) :
  respects R m → (∀ e, respects R (h e)) → respects R (try_catch m h).
Proof.
  intros Hm Hh s r s' H.
  destruct (try_catch_inv _ _ _ _ _ H) as [(a & H1 & ->)|(e & s1 & H1 & H2)].
  - eauto.
  - destruct (Hm _ _ _ H1) as (ev1 & T1 & R1).
    destruct (Hh e _ _ _ H2) as (ev2 & T2 & R2).
    exists (ev1 ++ ev2). split; [by rewrite T2, T1, app_assoc | eauto].
Qed.

Lemma respects_try_finally {A} (m : M A) (f : M unit) :
  respects R m → respects R f → respects R (try_finally m f).
Proof.
  intros Hm Hf s r s' H.
  destruct (try_finally_inv _ _ _ _ _ H) as (r1 & s1 & r2 & H1 & H2 & _).
  destruct (Hm _ _ _ H1) as (ev1 & T1 & R1).
  destruct (Hf _ _ _ H2) as (ev2 & T2 & R2).
  exists (ev1 ++ ev2). split; [by rewrite T2, T1, app_assoc | eauto].
Qed.

Lemma respects_for_each {A} (l : list A) (body : A → M unit) :
  (∀ x, respects R (body x)) → respects R (for_each l body).
Proof.
  intros Hb. induction l as [|x l IH]; simpl.
  - apply respects_ret.
  - apply respects_bind; auto.
Qed.

(** *** The steps that make no call *)

Hypothesis R_log : ∀ s l, R s [] (with_log l s).
Hypothesis R_heap : ∀ s h, R s [] (with_heap h s).
Hypothesis R_dbConnection : ∀ s c, R s [] (with_dbConnection c s).

(** A step that reads the state only. *)
Lemma respects_read {A} (f : State → A) : respects R (λ s, (Ok (f s), s)).
Proof. intros s r s' H. inversion H; subst. exists []. by rewrite app_nil_r. Qed.

Lemma respects_Date_now : respects R Date_now.
Proof. apply respects_read. Qed.
Lemma respects_get_dbConnection : respects R get_dbConnection.
Proof. apply respects_read. Qed.
Lemma respects_cls_get key : respects R (cls_get key).
Proof. apply (respects_read (λ s, default false (cls_ns s !! key))). Qed.
Lemma respects_in_statementCache sql : respects R (in_statementCache sql).
Proof. apply respects_read. Qed.
Lemma respects_statementCache_get sql : respects R (statementCache_get sql).
Proof. apply respects_read. Qed.

Lemma respects_log_error msg : respects R (log_error msg).
Proof. intros s r s' H. inversion H; subst. exists []. simpl. by rewrite app_nil_r. Qed.
Lemma respects_log_info msg : respects R (log_info msg).
Proof. intros s r s' H. inversion H; subst. exists []. simpl. by rewrite app_nil_r. Qed.

Lemma respects_setDbConnection c : respects R (setDbConnection c).
Proof. intros s r s' H. inversion H; subst. exists []. simpl. by rewrite app_nil_r. Qed.

Lemma respects_store_object l o : respects R (store_object l o).
Proof. intros s r s' H. inversion H; subst. exists []. simpl. by rewrite app_nil_r. Qed.

Lemma respects_deref rec : respects R (deref rec).
Proof.
  intros s r s' H. unfold deref in H.
  destruct (heap s !! rec); inversion H; subst; exists []; by rewrite app_nil_r.
Qed.

Lemma respects_prop_get rec idx : respects R (prop_get rec idx).
Proof. apply respects_bind; [apply respects_deref | intros; apply respects_ret]. Qed.

Lemma respects_prop_set rec idx v : respects R (prop_set rec idx v).
Proof.
  apply respects_bind; [apply respects_deref|].
  intros o s r s' H. inversion H; subst. exists []. simpl. by rewrite app_nil_r.
Qed.

Lemma respects_upsert_normalize rec idx : respects R (upsert_normalize rec idx).
Proof.
  apply respects_bind; [apply respects_prop_get|].
  intros []; auto using respects_ret, respects_prop_set.
Qed.

(** *** The calls *)

(** [permitted s e]: the call [e] may be made in state [s]. *)
Variable permitted : State → Event → Prop.
Hypothesis R_call : ∀ s e w, permitted s e → R s [e] (with_call e w s).

Lemma respects_call {A} e (f : World → Res A * World) :
  (∀ s, permitted s e) → respects R (call e f).
Proof.
  intros He s r s' H. unfold call in H.
  destruct (f (world s)) as [r1 w]. inversion H; subst.
  exists [e]. split; [done | by apply R_call].
Qed.

Hypothesis permitted_prepare : ∀ s sql,
  statementCache s !! sql = None → permitted s (EvPrepare sql).
Hypothesis permitted_get : ∀ s sql p, permitted s (EvStmt OpGet sql (Some p)).
Hypothesis permitted_all : ∀ s sql p, permitted s (EvStmt OpAll sql (Some p)).
Hypothesis permitted_run : ∀ s sql p, permitted s (EvStmt OpRun sql (Some p)).
Hypothesis permitted_conn_run : ∀ s sql p, permitted s (EvConnRun sql p).
Hypothesis R_statementCache : ∀ s sql h,
  statementCache s !! sql = None →
  R s [] (with_statementCache (<[sql := h]> (statementCache s)) s).

(** [stmt] prepares a text only when the cache does not hold it. *)
Lemma respects_stmt sql : respects R (stmt sql).
Proof.
  intros s r s' H. unfold stmt in H.
  apply bind_inv in H as [(cached & s1 & H1 & H2)|(e & H1 & _)]; [|done].
  unfold in_statementCache in H1. injection H1 as Hcached Hs. subst s1.
  destruct cached; simpl in H2.
  - inversion H2; subst. exists []. by rewrite app_nil_r.
  - apply orb_false_iff in Hcached as [Hc _].
    apply bool_decide_eq_false in Hc.
    assert (statementCache s !! sql = None) as Hnone.
    { destruct (statementCache s !! sql) eqn:Hl; [|done]. destruct Hc; eauto. }
    cbv beta iota delta [bind dbConnection_prepare get_dbConnection call throw
      statementCache_set statementCache_get] in H2.
    destruct (dbConnection s) as [c|].
    + destruct (eng_prepare c sql (world s)) as [[h|e] w];
        inversion H2; subst; clear H2.
      * exists ([EvPrepare sql] ++ []). split; [reflexivity|].
        eapply R_app; [apply R_call; auto|].
        by apply (R_statementCache (with_call (EvPrepare sql) w s)).
      * exists [EvPrepare sql]. split; [done|]. apply R_call; auto.
    + inversion H2; subst. exists []. by rewrite app_nil_r.
Qed.

Ltac respects_step :=
  first
    [ apply respects_ret | apply respects_throw
    | apply respects_Date_now | apply respects_get_dbConnection
    | apply respects_cls_get | apply respects_log_error | apply respects_log_info
    | apply respects_stmt | apply respects_deref | apply respects_setDbConnection
    | apply respects_store_object
    | apply respects_call; solve [auto]
    | apply respects_bind; [|intros ?]
    | apply respects_try_catch; [|intros ?]
    | apply respects_for_each; intros ?
    | apply respects_upsert_normalize
    | assumption
    | match goal with
      | |- respects R (match ?x with _ => _ end) => destruct x
      end ].

Lemma respects_stmt_get st p : respects R (stmt_get st p).
Proof. unfold stmt_get. repeat respects_step. Qed.
Lemma respects_stmt_all st p : respects R (stmt_all st p).
Proof. unfold stmt_all. repeat respects_step. Qed.
Lemma respects_stmt_run st p : respects R (stmt_run st (Some p)).
Proof. unfold stmt_run. repeat respects_step. Qed.

Lemma respects_wrap {A} (func : M A) query : respects R func → respects R (wrap func query).
Proof. intros Hf. unfold wrap. repeat respects_step. Qed.

Lemma respects_getRow q p : respects R (getRow q p).
Proof.
  apply respects_wrap. apply respects_bind; [apply respects_stmt|].
  intros; apply respects_stmt_get.
Qed.

Lemma respects_getRows q p : respects R (getRows q p).
Proof.
  apply respects_wrap. apply respects_bind; [apply respects_stmt|].
  intros; apply respects_stmt_all.
Qed.

Lemma respects_getRowOrNull q p : respects R (getRowOrNull q p).
Proof. unfold getRowOrNull. apply respects_bind; [apply respects_getRows|]. intros; apply respects_ret. Qed.

Lemma respects_getValue q p : respects R (getValue q p).
Proof.
  unfold getValue. apply respects_bind; [apply respects_getRowOrNull|].
  intros []; apply respects_ret.
Qed.

Lemma respects_getManyRows_loop n q p res : respects R (getManyRows_loop n q p res).
Proof.
  revert p res. induction n as [|n IH]; intros p res; simpl.
  - apply respects_ret.
  - case_bool_decide; [|apply respects_ret].
    apply respects_bind; [apply respects_getRows|]. intros; apply IH.
Qed.

Lemma respects_getManyRows q p : respects R (getManyRows q p).
Proof. apply respects_getManyRows_loop. Qed.

Lemma respects_getMap q p : respects R (getMap q p).
Proof. unfold getMap. apply respects_bind; [apply respects_getRows|]. intros; apply respects_ret. Qed.

Lemma respects_getColumn q p : respects R (getColumn q p).
Proof.
  unfold getColumn. apply respects_bind; [apply respects_getRows|].
  intros []; apply respects_ret.
Qed.

Lemma respects_executeWithoutTransaction q p : respects R (executeWithoutTransaction q p).
Proof. unfold executeWithoutTransaction. repeat respects_step. Qed.

(** *** The functions that may begin a transaction *)

Hypothesis R_startTransactionIfNecessary : respects R startTransactionIfNecessary.

Lemma respects_execute q p : respects R (execute q p).
Proof.
  unfold execute. apply respects_bind; [done|]. intros _.
  apply respects_wrap. apply respects_bind; [apply respects_stmt|].
  intros; apply respects_stmt_run.
Qed.

Lemma respects_executeMany q p : respects R (executeMany q p).
Proof.
  unfold executeMany. apply respects_bind; [done|]. intros _.
  apply respects_bind; [apply respects_getManyRows|]. intros; apply respects_ret.
Qed.

Lemma respects_executeScript q : respects R (executeScript q).
Proof.
  unfold executeScript. apply respects_bind; [done|]. intros _.
  apply respects_wrap. apply respects_throw.
Qed.

Lemma respects_insert t rec r : respects R (insert t rec r).
Proof.
  unfold insert. case_bool_decide.
  - repeat respects_step.
  - apply respects_bind; [apply respects_execute|]. intros; apply respects_ret.
Qed.

Lemma respects_upsert t pk rec : respects R (upsert t pk rec).
Proof.
  unfold upsert. apply respects_bind; [apply respects_deref|]. intros o.
  case_bool_decide; [apply respects_log_error|].
  apply respects_bind; [apply respects_for_each; intros; apply respects_upsert_normalize|].
  intros _. apply respects_bind; [apply respects_deref|]. intros bound.
  apply respects_bind; [apply respects_execute|]. intros; apply respects_ret.
Qed.

(** *** Every caller *)

Hypothesis R_transactional : ∀ A (m : M A), respects R m → respects R (transactional m).

Lemma respects_client {A} (m : M A) : client m → respects R m.
Proof.
  induction 1;
    auto using respects_ret, respects_throw, respects_bind, respects_try_catch,
      respects_try_finally, respects_deref, respects_store_object,
      respects_setDbConnection, respects_insert, respects_upsert, respects_getValue,
      respects_getRow, respects_getRowOrNull, respects_getRows,
      respects_getManyRows, respects_getMap, respects_getColumn, respects_execute,
      respects_executeWithoutTransaction, respects_executeMany,
      respects_executeScript.
  apply respects_insert.
Qed.

(** *** Relations that do not look at the flags

    For such a relation the coordinator itself is one more caller. *)

Hypothesis R_cls_ns : ∀ s m, R s [] (with_cls_ns m s).
Hypothesis permitted_verb : ∀ s sql, permitted s (EvStmt OpRun sql None).
Hypothesis permitted_ping : ∀ s, permitted s EvPing.

Lemma respects_cls_set key value : respects R (cls_set key value).
Proof. intros s r s' H. inversion H; subst. exists []. simpl. by rewrite app_nil_r. Qed.

Lemma respects_verb sql : respects R (let* st := stmt sql in stmt_run st None).
Proof.
  apply respects_bind; [apply respects_stmt|]. intros []; simpl.
  - by apply respects_call.
  - apply respects_throw.
Qed.

Lemma respects_startTransactionIfNecessary_free : respects R startTransactionIfNecessary.
Proof.
  unfold startTransactionIfNecessary.
  apply respects_bind; [apply respects_cls_get|]. intros []; simpl; [|apply respects_ret].
  apply respects_bind; [apply respects_cls_get|]. intros []; [apply respects_ret|].
  apply respects_bind; [apply respects_cls_set|]. intros _.
  apply respects_bind; [apply respects_verb|]. intros; apply respects_ret.
Qed.

(** The [try] and [catch] blocks of [transactional]. *)
Lemma respects_transactional_blocks {A} (m : M A) :
  respects R m → respects R (try_catch (transactional_try m) transactional_catch).
Proof.
  intros Hm. unfold transactional_try, transactional_catch.
  apply respects_try_catch.
  - apply respects_bind; [done|]. intros a.
    apply respects_bind; [apply respects_cls_get|]. intros inTx.
    apply respects_bind; [|intros; apply respects_ret].
    destruct inTx; [|apply respects_ret].
    apply respects_bind; [apply respects_verb|]. intros _.
    by apply respects_call.
  - intros e. apply respects_bind; [apply respects_cls_get|]. intros inTx.
    apply respects_bind; [|intros; apply respects_throw].
    destruct inTx; [|apply respects_ret].
    apply respects_bind; [apply respects_verb|]. intros; apply respects_ret.
Qed.

Lemma respects_transactional_free {A} (m : M A) :
  respects R m → respects R (transactional m).
Proof.
  intros Hm. unfold transactional, transactional_finally.
  apply respects_bind; [apply respects_cls_get|]. intros []; [done|].
  apply respects_bind; [apply respects_cls_set|]. intros _.
  apply respects_try_finally.
  - by apply respects_transactional_blocks.
  - apply respects_bind; [apply respects_cls_set|]. intros _.
    apply respects_bind; [apply respects_cls_get|].
    intros []; [apply respects_cls_set | apply respects_ret].
Qed.

End Respects.

Lemma respects_weaken `{E : Engine} (R R' : State → list Event → State → Prop)
    {A} (m : M A) :
  (∀ s ev s', R s ev s' → R' s ev s') → respects R m → respects R' m.
Proof.
  intros HR Hm s r s' H. destruct (Hm _ _ _ H) as (ev & T & HRs). eauto.
Qed.

(** ** Calls are only ever added to the trace *)

Section Extends.
Context `{E : Engine}.

Lemma extends_of_respects R {A} (m : M A) : respects R m → extends m.
Proof. by apply respects_weaken. Qed.

Lemma extends_transactional {A} (m : M A) : extends m → extends (transactional m).
Proof. by apply respects_transactional_free with (permitted := λ _ _, True). Qed.

Lemma extends_startTransactionIfNecessary : extends startTransactionIfNecessary.
Proof. by apply respects_startTransactionIfNecessary_free with (permitted := λ _ _, True). Qed.

Lemma extends_verb sql : extends (let* st := stmt sql in stmt_run st None).
Proof. by apply respects_verb with (permitted := λ _ _, True). Qed.

Lemma extends_client {A} (m : M A) : client m → extends m.
Proof.
  apply respects_client with (permitted := λ _ _, True); try done.
  - apply extends_startTransactionIfNecessary.
  - intros. by apply extends_transactional.
Qed.

End Extends.

(** ** Counting calls *)

Lemma count_nil e : count e [] = 0.
Proof. done. Qed.

Lemma count_app e l1 l2 : count e (l1 ++ l2) = count e l1 + count e l2.
Proof. unfold count. by rewrite filter_app, length_app. Qed.

Lemma count_single_eq e : count e [e] = 1.
Proof. unfold count. by rewrite filter_cons_True. Qed.

Lemma count_single_ne e x : x ≠ e → count e [x] = 0.
Proof. intros. unfold count. by rewrite filter_cons_False. Qed.

Lemma count_cons e x l :
  count e (x :: l) = (if decide (x = e) then 1 else 0) + count e l.
Proof.
  change (x :: l) with ([x] ++ l). rewrite count_app.
  case_decide; subst; by rewrite ?count_single_eq, ?count_single_ne.
Qed.

(** ** Single steps of the coordinator *)

Section Coordinator.
Context `{E : Engine}.

Lemma cls_get_run key s : cls_get key s = (Ok (flag key s), s).
Proof. done. Qed.

Lemma flag_insert_eq key b s :
  flag key (with_cls_ns (<[key := b]> (cls_ns s)) s) = b.
Proof. unfold flag. simpl. by rewrite lookup_insert_eq. Qed.

Lemma flag_insert_ne key key' b s :
  key ≠ key' → flag key' (with_cls_ns (<[key := b]> (cls_ns s)) s) = flag key' s.
Proof. intros. unfold flag. simpl. by rewrite lookup_insert_ne. Qed.

(** Inside a scope, [transactional] is its function and nothing more. *)
Lemma transactional_inline {A} (func : M A) s :
  isTransactional s = true → transactional func s = func s.
Proof.
  intros HT. unfold transactional.
  rewrite (bind_ok _ _ _ _ _ (cls_get_run _ _)).
  unfold isTransactional in HT. by rewrite HT.
Qed.

(** Outside of a scope [startTransactionIfNecessary] does nothing, and so
    it does once the transaction is open. *)
Lemma startTransactionIfNecessary_idle s :
  isTransactional s = false ∨ isInTransaction s = true →
  startTransactionIfNecessary s = (Ok tt, s).
Proof.
  intros H. unfold startTransactionIfNecessary.
  rewrite (bind_ok _ _ _ _ _ (cls_get_run _ _)).
  unfold isTransactional, isInTransaction in H.
  destruct (flag "isTransactional" s); simpl; [|done].
  rewrite (bind_ok _ _ _ _ _ (cls_get_run _ _)).
  destruct H as [H|H]; [done|]. by rewrite H.
Qed.

(** The first write of a scope: the flag is set, then [BEGIN] is prepared
    if need be and run. *)
Lemma startTransactionIfNecessary_begin s :
  isTransactional s = true → isInTransaction s = false →
  startTransactionIfNecessary s =
  (beginTransaction ;; ret tt)
    (with_cls_ns (<["isInTransaction" := true]> (cls_ns s)) s).
Proof.
  intros HT HI. unfold startTransactionIfNecessary.
  rewrite (bind_ok _ _ _ _ _ (cls_get_run _ _)).
  unfold isTransactional, isInTransaction in *. rewrite HT. simpl.
  rewrite (bind_ok _ _ _ _ _ (cls_get_run _ _)). by rewrite HI.
Qed.

(** A statement of the cache carries the text it was asked for. *)
Lemma stmt_source sql s src h s' :
  stmt sql s = (Ok (Compiled src h), s') → src = sql.
Proof.
  unfold stmt. intros H.
  apply bind_inv in H as [(cached & s1 & _ & H)|(e & _ & ?)]; [|done].
  apply bind_inv in H as [(u & s2 & _ & H)|(e & _ & ?)]; [|done].
  unfold statementCache_get in H.
  destruct (statementCache s2 !! sql); by inversion H.
Qed.

(** What a transaction verb does: [stmt] first, and then the call [run()]
    of the statement, recorded under the verb's text. *)
Lemma verb_inv sql s r s' :
  (let* st := stmt sql in stmt_run st None) s = (r, s') →
  (∃ e, stmt sql s = (Raise e, s') ∧ r = Raise e) ∨
  (∃ s1 e, stmt sql s = (Ok NotAStatement, s1) ∧ s' = s1 ∧ r = Raise e) ∨
  (∃ h s1 w, stmt sql s = (Ok (Compiled sql h), s1) ∧
             eng_run h None (world s1) = (r, w) ∧
             s' = with_call (EvStmt OpRun sql None) w s1).
Proof.
  intros H. apply bind_inv in H as [(st & s1 & H1 & H2)|(e & H1 & ->)]; [|eauto].
  right. destruct st as [src h|]; simpl in H2.
  - pose proof (stmt_source _ _ _ _ _ H1) as ->. right.
    unfold call in H2. destruct (eng_run h None (world s1)) as [r1 w] eqn:Hr.
    inversion H2; subst. eauto 10.
  - left. inversion H2; subst. eauto 10.
Qed.

End Coordinator.

(** ** Callers inside a transactional scope *)

Section Scope.
Context `{E : Engine}.

Lemma in_scope_nil s : in_scope s [] s.
Proof. intros HT. rewrite !count_nil. repeat split; auto with lia. Qed.

Lemma in_scope_app s1 ev1 s2 ev2 s3 :
  in_scope s1 ev1 s2 → in_scope s2 ev2 s3 → in_scope s1 (ev1 ++ ev2) s3.
Proof.
  intros H1 H2 HT.
  destruct (H1 HT) as (T2 & C1 & R1 & P1 & B1 & I1 & J1).
  destruct (H2 T2) as (T3 & C2 & R2 & P2 & B2 & I2 & J2).
  rewrite !count_app.
  split; [done|]. split; [lia|]. split; [lia|]. split; [lia|].
  split; [|split].
  - destruct (decide (count BEGIN ev1 = 1)) as [Heq|Hne].
    + destruct (I2 (J1 Heq)). lia.
    + lia.
  - intros HI. destruct (I1 HI) as [? HI2]. destruct (I2 HI2). split; [lia|done].
  - intros Hc. destruct (decide (count BEGIN ev1 = 1)) as [Heq|Hne].
    + by destruct (I2 (J1 Heq)).
    + apply J2. lia.
Qed.

(** A step that leaves the flags alone and makes no call. *)
Lemma in_scope_same_cls s s' : cls_ns s' = cls_ns s → in_scope s [] s'.
Proof.
  intros Hc HT. unfold isTransactional, isInTransaction, flag in *.
  rewrite Hc, !count_nil. repeat split; auto with lia.
Qed.

Lemma in_scope_call s e w : quiet e → in_scope s [e] (with_call e w s).
Proof.
  intros (Hb & Hc & Hr & Hp) HT.
  rewrite !count_single_ne by done. repeat split; auto with lia.
Qed.

Lemma quiet_prepare sql : quiet (EvPrepare sql).
Proof. by repeat split. Qed.
Lemma quiet_stmt op sql p : quiet (EvStmt op sql (Some p)).
Proof. by repeat split. Qed.
Lemma quiet_conn_run sql p : quiet (EvConnRun sql p).
Proof. by repeat split. Qed.

Ltac scope_side :=
  first
    [ exact in_scope_nil | exact in_scope_app | exact in_scope_call
    | intros;
      first [ apply quiet_prepare | apply quiet_stmt | apply quiet_conn_run
            | by apply in_scope_same_cls ] ].

Lemma in_scope_stmt sql : respects in_scope (stmt sql).
Proof. apply respects_stmt with (permitted := λ _ e, quiet e); scope_side. Qed.

(** The first write of a scope sets the flag and issues the one [BEGIN];
    a later one issues nothing. *)
Lemma in_scope_startTransactionIfNecessary :
  respects in_scope startTransactionIfNecessary.
Proof.
  intros s r s' H.
  destruct (isTransactional s) eqn:HT; cycle 1.
  { destruct (extends_startTransactionIfNecessary _ _ _ H) as (ev & Tr & _).
    exists ev. split; [done|]. intros ?; congruence. }
  destruct (isInTransaction s) eqn:HI.
  { rewrite startTransactionIfNecessary_idle in H by auto.
    inversion H; subst. exists []. split; [by rewrite app_nil_r | apply in_scope_nil]. }
  rewrite startTransactionIfNecessary_begin in H by done.
  set (s0 := with_cls_ns _ s) in H.
  assert (isTransactional s0 = true) as HT0.
  { unfold isTransactional, s0. by rewrite flag_insert_ne. }
  assert (isInTransaction s0 = true) as HI0 by apply flag_insert_eq.
  assert (∃ rb, beginTransaction s0 = (rb, s')) as [rb Hb].
  { apply bind_inv in H as [(a & s1 & ? & H)|(e & ? & _)]; [|eauto].
    inversion H; subst; eauto. }
  clear H. unfold beginTransaction in Hb.
  assert (∀ s1 ev1, trace s1 = trace s0 ++ ev1 → in_scope s0 ev1 s1 →
            ∃ ev, trace s1 = trace s ++ ev ∧ in_scope s ev s1) as Hstay.
  { intros s1 ev1 Tr Hin. exists ev1. split; [done|]. intros _.
    destruct (Hin HT0) as (T1 & C1 & R1 & P1 & B1 & I1 & _).
    destruct (I1 HI0) as [B0 HI1]. repeat split; auto with lia; congruence. }
  apply verb_inv in Hb
    as [(e & Hs & _)|[(s1 & e & Hs & -> & _)|(h & s1 & w & Hs & _ & ->)]].
  - destruct (in_scope_stmt _ _ _ _ Hs) as (ev1 & Tr & Hin). eauto.
  - destruct (in_scope_stmt _ _ _ _ Hs) as (ev1 & Tr & Hin). eauto.
  - destruct (in_scope_stmt _ _ _ _ Hs) as (ev1 & Tr & Hin).
    exists (ev1 ++ [BEGIN]). split; [simpl; by rewrite Tr, app_assoc|]. intros _.
    destruct (Hin HT0) as (T1 & C1 & R1 & P1 & B1 & I1 & _).
    destruct (I1 HI0) as [B0 HI1].
    rewrite !count_app, count_single_eq, !count_single_ne by done.
    repeat split; auto with lia; congruence.
Qed.

Lemma in_scope_transactional {A} (m : M A) :
  respects in_scope m → respects in_scope (transactional m).
Proof.
  intros Hm s r s' H. destruct (isTransactional s) eqn:HT.
  - rewrite transactional_inline in H by done. eauto.
  - destruct (extends_transactional m (extends_of_respects _ _ Hm) _ _ _ H)
      as (ev & Tr & _).
    exists ev. split; [done|]. intros ?; congruence.
Qed.

(** Every caller keeps to [in_scope]. *)
Lemma in_scope_client {A} (m : M A) : client m → respects in_scope m.
Proof.
  apply respects_client with (permitted := λ _ e, quiet e);
    first [ scope_side
          | exact in_scope_startTransactionIfNecessary
          | intros; by apply in_scope_transactional ].
Qed.

End Scope.

(** ** The outermost [transactional] *)

Section Outermost.
Context `{E : Engine}.

Lemma transactional_finally_run s : transactional_finally s = (Ok tt, cleared s).
Proof.
  unfold transactional_finally, cleared, isInTransaction.
  cbv beta iota delta [bind cls_set cls_get ret].
  fold (flag "isInTransaction" (with_cls_ns (<["isTransactional":=false]> (cls_ns s)) s)).
  by destruct (flag "isInTransaction" _).
Qed.

Lemma cleared_flags s :
  isTransactional (cleared s) = false ∧ isInTransaction (cleared s) = false.
Proof.
  unfold cleared.
  destruct (isInTransaction (with_cls_ns _ s)) eqn:HI; unfold isTransactional, isInTransaction.
  - by rewrite flag_insert_ne, !flag_insert_eq.
  - by rewrite flag_insert_eq.
Qed.

Lemma cleared_trace s : trace (cleared s) = trace s.
Proof. unfold cleared. by destruct (isInTransaction _). Qed.

Lemma entered_flags s :
  isTransactional (entered s) = true ∧ isInTransaction (entered s) = isInTransaction s.
Proof.
  unfold entered, isTransactional, isInTransaction.
  by rewrite flag_insert_eq, flag_insert_ne.
Qed.

(** The outermost call marks the scope, runs its [try] and [catch], and
    clears the flags on the way out, whatever the outcome. *)
Lemma transactional_outermost {A} (func : M A) s :
  isTransactional s = false →
  transactional func s =
  (let (r, s') := try_catch (transactional_try func) transactional_catch (entered s)
   in (r, cleared s')).
Proof.
  intros HT. unfold transactional.
  rewrite (bind_ok _ _ _ _ _ (cls_get_run _ _)).
  unfold isTransactional in HT. rewrite HT.
  cbv beta iota delta [bind cls_set try_finally]. fold (entered s).
  destruct (try_catch _ _ (entered s)) as [r s'].
  by rewrite transactional_finally_run.
Qed.

(** [catch (e)]: roll back if the transaction is open, and raise [e] again
    unless rolling back raises. *)
Lemma transactional_catch_run {A} e s :
  transactional_catch (A := A) e s =
  if isInTransaction s then
    let (rr, s') := rollback s in
    (Raise match rr with Ok _ => e | Raise e' => e' end, s')
  else (Raise e, s).
Proof.
  unfold transactional_catch.
  rewrite (bind_ok _ _ _ _ _ (cls_get_run _ _)).
  unfold isInTransaction. destruct (flag "isInTransaction" s); [|done].
  cbv beta iota delta [bind ret throw].
  by destruct (rollback s) as [[ri|e'] s'].
Qed.

End Outermost.

(** ** The calls of the outermost [transactional] *)

Section OutermostTrace.
Context `{E : Engine}.

(** A transaction verb inside an open transaction: the flags stay, the
    statement is prepared if need be and then run. *)
Lemma verb_scope sql s r s' :
  isTransactional s = true → isInTransaction s = true →
  (let* st := stmt sql in stmt_run st None) s = (r, s') →
  isTransactional s' = true ∧ isInTransaction s' = true ∧
  ∃ pre tail, trace s' = trace s ++ pre ++ tail ∧ silent pre ∧
    (tail = [EvStmt OpRun sql None] ∨ (tail = [] ∧ ∃ e, r = Raise e)).
Proof.
  intros HT HI H.
  assert (∀ e s1, stmt sql s = (e, s1) →
            isTransactional s1 = true ∧ isInTransaction s1 = true ∧
            ∃ pre, trace s1 = trace s ++ pre ∧ silent pre) as Hstmt.
  { intros e s1 Hs. destruct (in_scope_stmt _ _ _ _ Hs) as (pre & Tr & Hin).
    destruct (Hin HT) as (? & ? & ? & ? & ? & I1 & _). destruct (I1 HI).
    unfold silent. eauto 10. }
  apply verb_inv in H
    as [(e & Hs & ->)|[(s1 & e & Hs & -> & ->)|(h & s1 & w & Hs & Hr & ->)]].
  - destruct (Hstmt _ _ Hs) as (? & ? & pre & Tr & ?).
    do 2 (split; [done|]). exists pre, []. rewrite app_nil_r.
    do 2 (split; [done|]). right. eauto.
  - destruct (Hstmt _ _ Hs) as (? & ? & pre & Tr & ?).
    do 2 (split; [done|]). exists pre, []. rewrite app_nil_r.
    do 2 (split; [done|]). right. eauto.
  - destruct (Hstmt _ _ Hs) as (? & ? & pre & Tr & ?).
    do 2 (split; [done|]). exists pre, [EvStmt OpRun sql None].
    simpl. rewrite Tr, <- app_assoc. auto.
Qed.

(** A verb that returns has been run. *)
Lemma verb_ok sql s ri s' :
  (let* st := stmt sql in stmt_run st None) s = (Ok ri, s') →
  ∃ s1, trace s' = trace s1 ++ [EvStmt OpRun sql None].
Proof.
  intros H. apply verb_inv in H
    as [(e & _ & ?)|[(s1 & e & _ & _ & ?)|(h & s1 & w & _ & _ & ->)]]; try done.
  by exists s1.
Qed.

(** The ways through the [try] block. *)
Lemma transactional_try_inv {A} (func : M A) s0 r s' :
  transactional_try func s0 = (r, s') →
  ∃ r1 s1, func s0 = (r1, s1) ∧
    ((∃ e, r1 = Raise e ∧ r = Raise e ∧ s' = s1) ∨
     (∃ a, r1 = Ok a ∧ isInTransaction s1 = false ∧ r = Ok a ∧ s' = s1) ∨
     (∃ a rc s2, r1 = Ok a ∧ isInTransaction s1 = true ∧ commit s1 = (rc, s2) ∧
        ((∃ e, rc = Raise e ∧ r = Raise e ∧ s' = s2) ∨
         (∃ ri rp w, rc = Ok ri ∧ ws_sendPingToAllClients (world s2) = (rp, w) ∧
            s' = with_call EvPing w s2 ∧
            r = match rp with Ok _ => Ok a | Raise e => Raise e end)))).
Proof.
  unfold transactional_try. intros H.
  apply bind_inv in H as [(a & s1 & Hf & H)|(e & Hf & ->)]; [|eauto 10].
  exists (Ok a), s1. split; [done|]. right.
  rewrite (bind_ok _ _ _ _ _ (cls_get_run _ _)) in H.
  fold (isInTransaction s1) in H. destruct (isInTransaction s1) eqn:HI.
  - right. apply bind_inv in H as [(u & s3 & H & Hret)|(e & H & ->)].
    + inversion Hret; subst; clear Hret.
      apply bind_inv in H as [(ri & s2 & Hc & Hp)|(e & Hc & ?)]; [|done].
      unfold sendPingToAllClients, call in Hp.
      destruct (ws_sendPingToAllClients (world s2)) as [rp w] eqn:Hw.
      inversion Hp; subst. exists a, (Ok ri), s2. eauto 15.
    + apply bind_inv in H as [(ri & s2 & Hc & Hp)|(e' & Hc & Heq)].
      * unfold sendPingToAllClients, call in Hp.
        destruct (ws_sendPingToAllClients (world s2)) as [rp w] eqn:Hw.
        inversion Hp; subst. exists a, (Ok ri), s2. eauto 15.
      * injection Heq as <-. exists a, (Raise e), s'. eauto 15.
  - left. inversion H; subst. eauto 10.
Qed.

(** The ways through the [catch] block. *)
Lemma transactional_catch_inv {A} e s (r : Res A) s' :
  isTransactional s = true →
  transactional_catch e s = (r, s') →
  (isInTransaction s = false ∧ s' = s ∧ r = Raise e) ∨
  (isInTransaction s = true ∧
   ∃ pre tail, trace s' = trace s ++ pre ++ tail ∧ silent pre ∧
     (tail = [ROLLBACK] ∨ tail = []) ∧ ∃ e', r = Raise e').
Proof.
  intros HT. rewrite transactional_catch_run.
  destruct (isInTransaction s) eqn:HI; [|intros [= <- <-]; auto].
  destruct (rollback s) as [rr s2] eqn:Hr. intros [= <- <-]. right. split; [done|].
  destruct (verb_scope _ _ _ _ HT HI Hr) as (_ & _ & pre & tail & Tr & Hs & Htail).
  exists pre, tail. do 2 (split; [done|]). split; [|eauto].
  destruct Htail as [->|[-> _]]; auto.
Qed.

Ltac counts :=
  repeat match goal with H : silent _ |- _ => destruct H as (? & ? & ? & ?) end;
  unfold silent;
  rewrite ?count_app, ?count_nil, ?count_single_eq;
  rewrite ?count_single_ne by done;
  repeat split; try lia; try done; try congruence;
  try match goal with H : ∃ _, _ = _ |- _ => by destruct H end.

(** The calls of an outermost [transactional] around a caller: those of
    the caller, [evb], and then those of the coordinator, [evt]. *)
Lemma outermost_trace {A} (func : M A) s r s' r1 s1 :
  client func → isTransactional s = false →
  func (entered s) = (r1, s1) → transactional func s = (r, s') →
  ∃ evb evt,
    trace s1 = trace s ++ evb ∧ trace s' = trace s ++ evb ++ evt ∧
    (count COMMIT evb = 0 ∧ count ROLLBACK evb = 0 ∧ count EvPing evb = 0 ∧
     count BEGIN evb ≤ 1 ∧ (count BEGIN evb = 1 → isInTransaction s1 = true)) ∧
    (count BEGIN evt = 0 ∧ count COMMIT evt ≤ 1 ∧ count ROLLBACK evt ≤ 1 ∧
     count EvPing evt ≤ 1) ∧
    (isInTransaction s1 = false → evt = []) ∧
    ((∃ e, r1 = Raise e) → count COMMIT evt = 0 ∧ count EvPing evt = 0) ∧
    (count EvPing evt = 1 →
       ∃ pre post, evt = pre ++ [COMMIT; EvPing] ++ post ∧ silent pre ∧
                   count COMMIT post = 0 ∧ count EvPing post = 0) ∧
    (∀ a, r = Ok a →
       r1 = Ok a ∧ count ROLLBACK evt = 0 ∧
       (isInTransaction s1 = true → count COMMIT evt = 1 ∧ count EvPing evt = 1)) ∧
    (∀ a ri s2, r1 = Ok a → isInTransaction s1 = true →
       commit s1 = (Ok ri, s2) → count EvPing evt = 1).
Proof.
  intros Hc HT Hf Ht.
  rewrite transactional_outermost in Ht by done.
  destruct (try_catch _ _ (entered s)) as [r' s2] eqn:Htc.
  injection Ht as <- <-. rewrite cleared_trace.
  destruct (entered_flags s) as [HT0 _].
  destruct (in_scope_client _ Hc _ _ _ Hf) as (evb & Tb & Hin).
  destruct (Hin HT0) as (HT1 & Cb & Rb & Pb & Bb & _ & Jb).
  change (trace (entered s)) with (trace s) in Tb.
  exists evb.
  assert (∀ evt, trace s2 = trace s1 ++ evt → trace s2 = trace s ++ evb ++ evt) as Tr.
  { intros evt ->. by rewrite Tb, app_assoc. }
  apply try_catch_inv in Htc as [(a & Htry & ->)|(e & s3 & Htry & Hcatch)].
  - (* the [try] block returns *)
    apply transactional_try_inv in Htry as (r1' & s1' & Hf' & Hcase).
    rewrite Hf in Hf'. injection Hf' as <- <-.
    destruct Hcase as [(e & _ & ? & _)|[(a' & -> & HI & [= <-] & ->)
      |(a' & rc & s4 & -> & HI & Hcm & [(e & _ & ? & _)
         |(ri & rp & w & -> & Hp & -> & Hr)])]]; try done.
    + exists []. rewrite app_nil_r.
      do 3 (split; [done|]). counts; try done; try congruence.
    + destruct rp as [u|e]; [|done]. injection Hr as <-.
      destruct (verb_scope _ _ _ _ HT1 HI Hcm) as (_ & _ & pre & tail & Tc & Hs & Htail).
      destruct Htail as [->|[_ [e ?]]]; [|done].
      exists (pre ++ [COMMIT] ++ [EvPing]).
      split; [done|]. split; [apply Tr; simpl; by rewrite Tc, <- !app_assoc|].
      split; [done|]. counts.
      exists pre, []. counts.
  - (* the [try] block raises, [catch] runs *)
    apply transactional_try_inv in Htry as (r1' & s1' & Hf' & Hcase).
    rewrite Hf in Hf'. injection Hf' as <- <-.
    destruct Hcase as [(e0 & -> & [= <-] & ->)|[(a' & _ & _ & ? & _)
      |(a' & rc & s4 & -> & HI & Hcm & [(e0 & -> & [= <-] & ->)
         |(ri & rp & w & -> & Hp & -> & Hr)])]]; try done.
    + (* the function raised *)
      apply (transactional_catch_inv _ _ _ _ HT1) in Hcatch
        as [(HI & -> & ->)|(HI & pre & tail & T2 & Hs & Htail & e' & ->)].
      * exists []. rewrite app_nil_r. do 3 (split; [done|]). counts.
      * exists (pre ++ tail). split; [done|]. split; [by apply Tr|].
        split; [done|].
        destruct Htail as [->| ->]; counts.
    + (* [COMMIT] raised *)
      destruct (verb_scope _ _ _ _ HT1 HI Hcm)
        as (HT3 & HI3 & pre & tail & Tc & Hs & Htail).
      apply (transactional_catch_inv _ _ _ _ HT3) in Hcatch
        as [(HI' & _)|(_ & pre' & tail' & T2 & Hs' & Htail' & e' & ->)];
        [congruence|].
      exists (pre ++ tail ++ pre' ++ tail').
      split; [done|]. split; [apply Tr; by rewrite T2, Tc, <- !app_assoc|].
      split; [done|].
      destruct Htail as [->|[-> _]], Htail' as [->| ->]; counts.
    + (* the notification raised *)
      destruct rp as [u|e0]; [done|]. injection Hr as <-.
      destruct (verb_scope _ _ _ _ HT1 HI Hcm)
        as (HT3 & HI3 & pre & tail & Tc & Hs & Htail).
      destruct Htail as [->|[_ [e1 ?]]]; [|done].
      apply (transactional_catch_inv _ (with_call EvPing w s4) _ _ HT3) in Hcatch
        as [(HI' & _)|(_ & pre' & tail' & T2 & Hs' & Htail' & e' & ->)];
        [change (isInTransaction s4 = false) in HI'; congruence|].
      exists (pre ++ [COMMIT] ++ [EvPing] ++ pre' ++ tail').
      split; [done|]. split.
      { apply Tr. rewrite T2. simpl. rewrite Tc, <- !app_assoc. done. }
      split; [done|].
      destruct Htail' as [->| ->]; counts.
      * exists pre, (pre' ++ [ROLLBACK]). counts.
      * exists pre, (pre' ++ []). counts.
Qed.

End OutermostTrace.

(** * The transaction coordinator *)

Section CoordinatorClaims.
Context `{E : Engine}.


(** C2 (as amended).  For every function given to [transactional] outside
    of any scope: on every way out, returning or raising, both flags are
    cleared; and when the function raises [e] with the transaction open,
    the coordinator calls [rollback] and then raises [e] itself if
    [rollback] returned ([ROLLBACK] being then the last call made), and
    the error of [rollback] if it raised. *)
Theorem outermost_rollback_and_reset {A} (func : M A) (s : State) :
  isTransactional s = false →
  (isTransactional (transactional func s).2 = false ∧
   isInTransaction (transactional func s).2 = false) ∧
  (∀ e s1, func (entered s) = (Raise e, s1) → isInTransaction s1 = true →
     transactional func s =
       (let (rr, s2) := rollback s1 in
        (Raise match rr with Ok _ => e | Raise e' => e' end, cleared s2)) ∧
     (∀ ri s2, rollback s1 = (Ok ri, s2) →
        last (trace s2) = Some ROLLBACK ∧
        transactional func s = (Raise e, cleared s2))).
Proof.
  intros HT. rewrite transactional_outermost by done. split.
  - destruct (try_catch _ _ _) as [r s']. apply cleared_flags.
  - intros e s1 Hf HI.
    assert (try_catch (transactional_try func) transactional_catch (entered s)
            = transactional_catch e s1) as ->.
    { unfold try_catch, transactional_try. unfold bind at 1. by rewrite Hf. }
    rewrite transactional_catch_run, HI.
    split; [by destruct (rollback s1) as [rr s2]|].
    intros ri s2 Hr. rewrite Hr. split; [|done].
    destruct (verb_ok _ _ _ _ Hr) as (s3 & ->). by rewrite last_snoc.
Qed.

(** C4 (as amended).  For every caller given to [transactional] outside of
    any scope, among the calls [ev] of the whole call there is at most one
    notification; if there is one, it comes right after [COMMIT], which is
    then the first [COMMIT] and follows no [ROLLBACK]; there is none when
    the caller raises and none when it has made no write; and there is one
    as soon as the caller has returned with the transaction open and
    [COMMIT] has succeeded, so in particular whenever the whole call
    returns with the transaction open (and then no [ROLLBACK] is
    issued). *)
Theorem notification_only_after_commit {A} (func : M A) (s : State) :
  client func → isTransactional s = false →
  ∃ ev,
    trace (transactional func s).2 = trace s ++ ev ∧
    count EvPing ev ≤ 1 ∧
    (count EvPing ev = 1 →
       ∃ pre post, ev = pre ++ [COMMIT; EvPing] ++ post ∧
         count COMMIT pre = 0 ∧ count ROLLBACK pre = 0 ∧ count EvPing pre = 0 ∧
         count COMMIT post = 0 ∧ count EvPing post = 0) ∧
    ((∃ e, (func (entered s)).1 = Raise e) → count EvPing ev = 0) ∧
    (isInTransaction (func (entered s)).2 = false → count EvPing ev = 0) ∧
    (∀ a ri s2, (func (entered s)).1 = Ok a →
       isInTransaction (func (entered s)).2 = true →
       commit (func (entered s)).2 = (Ok ri, s2) → count EvPing ev = 1) ∧
    (∀ a, (transactional func s).1 = Ok a →
       isInTransaction (func (entered s)).2 = true →
       (func (entered s)).1 = Ok a ∧ count EvPing ev = 1 ∧ count ROLLBACK ev = 0).
Proof.
  intros Hc HT.
  destruct (func (entered s)) as [r1 s1] eqn:Hf.
  destruct (transactional func s) as [r s'] eqn:Ht.
  destruct (outermost_trace _ _ _ _ _ _ Hc HT Hf Ht)
    as (evb & evt & T1 & T2 & (Cb & Rb & Pb & Bb & Jb) & (Bt & Ct & Rt & Pt)
        & Hidle & Hraise & Hping & Hok & Hcommit).
  exists (evb ++ evt). simpl. rewrite !count_app.
  split; [done|]. split; [lia|]. split; [|split; [|split; [|split]]].
  - intros Hp. destruct Hping as (pre & post & -> & Hs & ? & ?); [lia|].
    exists (evb ++ pre), post. destruct Hs as (? & ? & ? & ?).
    rewrite !count_app, <- !app_assoc. repeat split; try done; lia.
  - intros Hr. destruct (Hraise Hr). lia.
  - intros HI. rewrite (Hidle HI), count_nil. lia.
  - intros a ri s2 Hr HI Hcm. specialize (Hcommit a ri s2 Hr HI Hcm). lia.
  - intros a -> HI. destruct (Hok a eq_refl) as (-> & ? & Hc1).
    destruct (Hc1 HI). repeat split; try done; lia.
Qed.

End CoordinatorClaims.

(** ** The coordinator on the sample engine *)

Definition boom : Exn :=
  {| exn_name := "Error"; exn_message := "boom"; exn_stack := "Error: boom" |}.

(** A caller that writes and then raises. *)
Definition write_then_raise `{E : Engine} : M unit :=
  execute "UPDATE notes SET title = 'x'" (PArr []) ;; throw boom.


(** C2, as stated, fails when [ROLLBACK] itself raises: the caller raised
    [boom] with the transaction open, and what comes out of
    [transactional] is the error of [ROLLBACK]. *)
Lemma rollback_error_replaces_original :
  let E := sample_engine ["ROLLBACK"] true in
  let s := start (Some 0) [] in
  (write_then_raise (entered s)).1 = Raise boom ∧
  isInTransaction (write_then_raise (entered s)).2 = true ∧
  count BEGIN (trace (write_then_raise (entered s)).2) = 1 ∧
  (transactional write_then_raise s).1 = Raise (sample_error "ROLLBACK") ∧
  (transactional write_then_raise s).1 ≠ Raise boom.
Proof. vm_compute. repeat split; done. Qed.

Lemma outermost_rollback_and_reset_witness :
  let E := sample_engine [] true in
  let s := start (Some 0) [] in
  isTransactional s = false ∧
  (transactional write_then_raise s).1 = Raise boom ∧
  isTransactional (transactional write_then_raise s).2 = false ∧
  isInTransaction (transactional write_then_raise s).2 = false.
Proof.
  intros E s. split; [reflexivity|].
  destruct (outermost_rollback_and_reset write_then_raise s eq_refl)
    as [[HT HI] Hraise].
  split; [|split; assumption].
  assert (write_then_raise (entered s)
          = (Raise boom, (write_then_raise (entered s)).2)) as Hf
    by (vm_compute; reflexivity).
  assert (isInTransaction (write_then_raise (entered s)).2 = true) as Hopen
    by (vm_compute; reflexivity).
  destruct (Hraise boom _ Hf Hopen) as [Hrun _].
  rewrite Hrun. vm_compute. reflexivity.
Defined.

(** C4, as stated, fails when the notification raises: the transaction has
    been committed, and the call issues [ROLLBACK] and raises. *)
Lemma failed_notification_fails_the_call :
  let E := sample_engine [] false in
  let body := execute "UPDATE notes SET title = 'x'" (PArr []) in
  let out := transactional body (start (Some 0) []) in
  (body (entered (start (Some 0) []))).1 = Ok {| changes := 1; lastInsertRowid := 7 |} ∧
  out.1 = Raise (sample_error "ping") ∧
  trace out.2 =
    [EvPrepare "BEGIN"; BEGIN;
     EvPrepare "UPDATE notes SET title = 'x'";
     EvStmt OpRun "UPDATE notes SET title = 'x'" (Some (PArr []));
     EvPrepare "COMMIT"; COMMIT; EvPing;
     EvPrepare "ROLLBACK"; ROLLBACK].
Proof. vm_compute. repeat split; done. Qed.

Lemma notification_only_after_commit_witness :
  let E := sample_engine [] true in
  let body := execute "UPDATE notes SET title = 'x'" (PArr []) in
  let s := start (Some 0) [] in
  client body ∧ isTransactional s = false ∧
  ∃ ev, trace (transactional body s).2 = trace s ++ ev ∧ count EvPing ev = 1.
Proof.
  intros E body s.
  split; [apply client_execute|]. split; [reflexivity|].
  destruct (notification_only_after_commit body s (client_execute _ _) eq_refl)
    as (ev & Tr & _ & _ & _ & _ & _ & Hok).
  exists ev. split; [exact Tr|].
  destruct (Hok {| changes := 1; lastInsertRowid := 7 |} eq_refl eq_refl)
    as (_ & Hp & _).
  exact Hp.
Defined.

(** * Mutation helpers *)

Section EmptyRecord.
Context `{E : Engine}.

(** C7.  [insert(table, {})] and [upsert(table, pk, {})] return
    [undefined] without raising, whatever the state (connection set or
    not, scope or not): nothing changes but the log, which gains exactly
    one error entry, so no call reaches the engine. *)
Theorem empty_record_is_skipped (tableName primaryKey : string) (replace : bool)
    (rec : loc) (s : State) :
  insert tableName [] replace s =
    (Ok VUndefined,
     with_log (log s ++ [(LError, "Can't insert empty object into table " +:+ tableName)]) s)
  ∧ trace (insert tableName [] replace s).2 = trace s
  ∧ world (insert tableName [] replace s).2 = world s
  ∧ (let s0 := with_heap (<[rec := []]> (heap s)) s in
     upsert tableName primaryKey rec s0 =
       (Ok tt,
        with_log (log s0 ++ [(LError, "Can't upsert empty object into table " +:+ tableName)]) s0)
     ∧ trace (upsert tableName primaryKey rec s0).2 = trace s
     ∧ world (upsert tableName primaryKey rec s0).2 = world s).
Proof.
  assert (∀ s0 : State, heap s0 !! rec = Some [] →
            upsert tableName primaryKey rec s0 =
            (Ok tt, with_log (log s0 ++ [(LError,
               "Can't upsert empty object into table " +:+ tableName)]) s0)) as Hup.
  { intros s0 Hh. unfold upsert, deref. unfold bind at 1. by rewrite Hh. }
  split; [done|]. split; [done|]. split; [done|].
  simpl. rewrite Hup by apply lookup_insert_eq. done.
Qed.

End EmptyRecord.

Section ExecuteScript.
Context `{E : Engine}.

(** What [wrap] raises for an error [e] of its function. *)
Definition rewrapped (e : Exn) : Exn :=
  {| exn_name := "Error"; exn_message := exn_stack e;
     exn_stack := exn_stack (new_Error "") |}.

(** C10.  [executeScript] raises for every text and in every state, and
    the only calls it makes are those of [startTransactionIfNecessary]:
    the text is neither prepared nor run.  When the lazy [BEGIN] has gone
    through and the connection is set, what is raised is the error of
    [wrap] around the [TypeError] of calling [stmt.run]. *)
Theorem executeScript_always_raises (query : string) (s : State) :
  (∃ e, (executeScript query s).1 = Raise e) ∧
  trace (executeScript query s).2 = trace (startTransactionIfNecessary s).2 ∧
  world (executeScript query s).2 = world (startTransactionIfNecessary s).2 ∧
  cls_ns (executeScript query s).2 = cls_ns (startTransactionIfNecessary s).2 ∧
  (∀ s1 c, startTransactionIfNecessary s = (Ok tt, s1) → dbConnection s1 = Some c →
     executeScript query s =
       (Raise (rewrapped (TypeError "stmt.run is not a function")),
        with_log (log s1 ++ [(LError, "Error executing query. Inner exception: "
                   +:+ exn_stack (TypeError "stmt.run is not a function")
                   +:+ exn_stack (new_Error ""))]) s1)).
Proof.
  unfold executeScript. cbv beta delta [bind].
  destruct (startTransactionIfNecessary s) as [[[]|e] s1] eqn:Hs; cbv beta iota.
  - assert (∀ c, dbConnection s1 = Some c →
              wrap (stmt_function_run query) query s1 =
              (Raise (rewrapped (TypeError "stmt.run is not a function")),
               with_log (log s1 ++ [(LError, "Error executing query. Inner exception: "
                   +:+ exn_stack (TypeError "stmt.run is not a function")
                   +:+ exn_stack (new_Error ""))]) s1)) as Hw.
    { intros c Hc. unfold wrap, get_dbConnection. unfold bind at 1. by rewrite Hc. }
    destruct (dbConnection s1) as [c|] eqn:Hc.
    + rewrite (Hw c eq_refl). simpl. repeat split; eauto.
      intros s2 c' [= <-] _. done.
    + unfold wrap, get_dbConnection. cbv beta iota delta [bind]. rewrite Hc. simpl.
      repeat split; eauto. intros s2 c' [= <-]. congruence.
  - simpl. repeat split; eauto. intros s2 c' [=].
Qed.

End ExecuteScript.

(** * The loop of [upsert] on the caller's record *)

Section UpsertLoop.
Context `{E : Engine}.

Lemma with_heap_same (s : State) : with_heap (heap s) s = s.
Proof. by destruct s. Qed.

Lemma upsert_normalize_run rec idx o s :
  heap s !! rec = Some o →
  upsert_normalize rec idx s =
  (Ok tt, with_heap (<[rec := normalize_at o idx]> (heap s)) s).
Proof.
  intros Hh. unfold upsert_normalize, prop_get, prop_set, normalize_at.
  cbv beta iota delta [bind deref ret]. rewrite Hh.
  destruct (obj_get o idx); try (by rewrite insert_id, with_heap_same).
  cbv beta iota. by rewrite Hh.
Qed.

Lemma for_each_normalize l rec o s :
  heap s !! rec = Some o →
  for_each l (upsert_normalize rec) s =
  (Ok tt, with_heap (<[rec := foldl normalize_at o l]> (heap s)) s).
Proof.
  revert o s. induction l as [|idx l IH]; intros o s Hh; simpl.
  - by rewrite insert_id, with_heap_same.
  - rewrite (bind_ok _ _ _ _ _ (upsert_normalize_run _ idx _ _ Hh)).
    rewrite (IH (normalize_at o idx)) by apply lookup_insert_eq.
    simpl. by rewrite insert_insert_eq.
Qed.

(** [upsert] on a record with fields: the loop has rewritten the caller's
    object when [execute] is reached, and [execute] binds the object as
    rewritten. *)
Lemma upsert_run tableName primaryKey rec o s :
  heap s !! rec = Some o → o ≠ [] →
  upsert tableName primaryKey rec s =
  (let o' := foldl normalize_at o (Object_keys o) in
   (execute (upsert_query tableName primaryKey (Object_keys o)) (PObj o') ;; ret tt)
     (with_heap (<[rec := o']> (heap s)) s)).
Proof.
  intros Hh Ho. unfold upsert.
  assert (deref rec s = (Ok o, s)) as Hd by (unfold deref; by rewrite Hh).
  rewrite (bind_ok _ _ _ _ _ Hd).
  rewrite bool_decide_eq_false_2
    by (unfold Object_keys; rewrite length_fmap; by destruct o).
  rewrite (bind_ok _ _ _ _ _ (for_each_normalize _ _ _ _ Hh)).
  set (s1 := with_heap _ s).
  assert (deref rec s1 = (Ok (foldl normalize_at o (Object_keys o)), s1)) as Hd1.
  { unfold deref, s1. simpl. by rewrite lookup_insert_eq. }
  by rewrite (bind_ok _ _ _ _ _ Hd1).
Qed.

(** *** The loop computes the record of the spec *)

Lemma obj_get_app_skip (o1 o2 : Obj) k :
  k ∉ Object_keys o1 → obj_get (o1 ++ o2) k = obj_get o2 k.
Proof.
  unfold Object_keys. induction o1 as [|[k' v] o1 IH]; simpl; [done|].
  intros Hk. apply not_elem_of_cons in Hk as [Hne Hk].
  rewrite decide_False by done. auto.
Qed.

Lemma obj_set_app_skip (o1 o2 : Obj) k v :
  k ∉ Object_keys o1 → obj_set (o1 ++ o2) k v = o1 ++ obj_set o2 k v.
Proof.
  unfold Object_keys. induction o1 as [|[k' v'] o1 IH]; simpl; [done|].
  intros Hk. apply not_elem_of_cons in Hk as [Hne Hk].
  rewrite decide_False by done. by rewrite IH.
Qed.

Lemma normalize_at_head (o1 o2 : Obj) k v :
  k ∉ Object_keys o1 →
  normalize_at (o1 ++ (k, v) :: o2) k = o1 ++ (k, normalized_value v) :: o2.
Proof.
  intros Hk. unfold normalize_at.
  rewrite obj_get_app_skip by done. simpl. rewrite decide_True by done.
  destruct v as [| |[]| |]; try done;
    rewrite obj_set_app_skip by done; simpl; by rewrite decide_True.
Qed.

Lemma Object_keys_normalized o : Object_keys (normalized o) = Object_keys o.
Proof.
  unfold Object_keys, normalized.
  induction o as [|[k v] o IH]; csimpl; [done|]. by rewrite IH.
Qed.

Lemma foldl_normalize_at (o1 o2 : Obj) :
  NoDup (Object_keys (o1 ++ o2)) →
  foldl normalize_at (normalized o1 ++ o2) (Object_keys o2) = normalized (o1 ++ o2).
Proof.
  revert o1. induction o2 as [|[k v] o2 IH]; intros o1 Hnd; simpl.
  - by rewrite !app_nil_r.
  - assert (k ∉ Object_keys o1) as Hk.
    { unfold Object_keys in *. rewrite fmap_app in Hnd.
      apply NoDup_app in Hnd as (_ & Hdis & _).
      intros Hin. apply (Hdis _ Hin). simpl. left. }
    rewrite normalize_at_head by by rewrite Object_keys_normalized.
    assert (NoDup (Object_keys ((o1 ++ [(k, v)]) ++ o2))) as Hnd'
      by (by rewrite <- app_assoc).
    specialize (IH _ Hnd'). unfold normalized in IH |- *.
    rewrite !fmap_app in IH. rewrite fmap_app. csimpl in IH. csimpl.
    rewrite <- !app_assoc in IH. exact IH.
Qed.

Lemma upsert_loop_normalized o :
  NoDup (Object_keys o) → foldl normalize_at o (Object_keys o) = normalized o.
Proof. intros Hnd. by apply (foldl_normalize_at [] o). Qed.

End UpsertLoop.

Section UpsertClaim.
Context `{E : Engine}.

Lemma execute_keeps_heap q p : respects (λ s _ s', heap s' = heap s) (execute q p).
Proof.
  apply respects_execute with (permitted := λ _ _, True); try done.
  - intros; congruence.
  - apply respects_startTransactionIfNecessary_free with (permitted := λ _ _, True);
      try done.
    intros; congruence.
Qed.

Lemma obj_get_normalized o k :
  obj_get (normalized o) k = normalized_value (obj_get o k).
Proof.
  unfold normalized. induction o as [|[k' v] o IH]; csimpl; [done|].
  case_decide; [done|]. apply IH.
Qed.

(** C9.  For every record with fields that the caller hands to [upsert]
    by reference: when [execute] is reached the caller's own object holds
    1 or 0 in place of every boolean, field by field, and every other
    field as it was; it is this object that is bound; and the caller's
    object is still so after the call, whatever [execute] did. *)
Theorem upsert_normalizes_in_place (tableName primaryKey : string) (rec : loc)
    (o : Obj) (s : State) :
  heap s !! rec = Some o → o ≠ [] → NoDup (Object_keys o) →
  upsert tableName primaryKey rec s =
    (execute (upsert_query tableName primaryKey (Object_keys o)) (PObj (normalized o)) ;;
     ret tt)
      (with_heap (<[rec := normalized o]> (heap s)) s)
  ∧ heap (upsert tableName primaryKey rec s).2 !! rec = Some (normalized o)
  ∧ Object_keys (normalized o) = Object_keys o
  ∧ ∀ k, obj_get (normalized o) k =
         match obj_get o k with
         | VBool b => VNum (if b then 1 else 0)
         | v => v
         end.
Proof.
  intros Hh Ho Hnd.
  assert (upsert tableName primaryKey rec s =
    (execute (upsert_query tableName primaryKey (Object_keys o)) (PObj (normalized o)) ;;
     ret tt)
      (with_heap (<[rec := normalized o]> (heap s)) s)) as Hrun.
  { rewrite (upsert_run _ _ _ _ _ Hh Ho). cbv zeta.
    by rewrite upsert_loop_normalized. }
  split; [done|]. split; [|split; [apply Object_keys_normalized|]].
  - rewrite Hrun.
    destruct ((execute _ _ ;; ret tt) _) as [r s'] eqn:Hx.
    assert (respects (λ s _ s', heap s' = heap s)
              (execute (upsert_query tableName primaryKey (Object_keys o))
                 (PObj (normalized o)) ;; ret tt)) as Hr.
    { apply respects_bind; [intros; congruence | apply execute_keeps_heap|].
      intros; by apply respects_ret. }
    destruct (Hr _ _ _ Hx) as (_ & _ & Hheap). simpl. rewrite Hheap. simpl.
    apply lookup_insert_eq.
  - intros k. rewrite obj_get_normalized. by destruct (obj_get o k) as [| |[]| |].
Qed.

End UpsertClaim.

Lemma upsert_normalizes_in_place_witness :
  let E := sample_engine [] true in
  let o := [("noteId", VStr "n1"); ("isDeleted", VBool false); ("isProtected", VBool true)] in
  let s := with_heap (<[0 := o]> ∅) (start (Some 0) []) in
  heap s !! 0 = Some o ∧ o ≠ [] ∧ NoDup (Object_keys o) ∧
  heap (upsert "notes" "noteId" 0 s).2 !! 0 =
    Some [("noteId", VStr "n1"); ("isDeleted", VNum 0); ("isProtected", VNum 1)].
Proof.
  intros E o s.
  assert (heap s !! 0 = Some o) as Hh by reflexivity.
  assert (o ≠ []) as Ho by discriminate.
  assert (NoDup (Object_keys o)) as Hnd
    by (apply (bool_decide_unpack (NoDup (Object_keys o))); vm_compute; exact I).
  split; [exact Hh|]. split; [exact Ho|]. split; [exact Hnd|].
  exact (proj1 (proj2 (upsert_normalizes_in_place "notes" "noteId" 0 o s Hh Ho Hnd))).
Defined.

(** * Before the connection is set *)

Section NotInitialized.
Context `{E : Engine}.






End NotInitialized.


(** The first write of a scope before the connection is set: the lazy
    [BEGIN] comes before the guard of [wrap], and it is the [TypeError] of
    [dbConnection.prepare] that is raised. *)
Lemma write_in_scope_before_connection :
  let E := sample_engine [] true in
  (transactional (execute "UPDATE notes SET title = 'x'" (PArr [])) (start None [])).1
  = Raise (TypeError "Cannot read property 'prepare' of undefined").
Proof. vm_compute. done. Qed.


(** * Reading never begins a transaction *)

Section Readers.
Context `{E : Engine}.

Lemma read_calls_no_BEGIN ev : Forall is_read_call ev → count BEGIN ev = 0.
Proof.
  induction 1 as [|e ev He _ IH]; [done|].
  rewrite count_cons, IH. case_decide; [|done]. by subst.
Qed.

Lemma reads_only_app s1 ev1 s2 ev2 s3 :
  reads_only s1 ev1 s2 → reads_only s2 ev2 s3 → reads_only s1 (ev1 ++ ev2) s3.
Proof. intros [H1 ?] [H2 ?]. split; [congruence | by apply Forall_app]. Qed.

Lemma reads_only_nil s : reads_only s [] s.
Proof. by split. Qed.

Ltac reads_side :=
  first
    [ exact reads_only_nil
    | exact reads_only_app
    | by (intros; split; [|apply Forall_singleton])
    | by split
    | done ].

Lemma reads_only_getRows q p : respects reads_only (getRows q p).
Proof.
  apply respects_getRows with (permitted := λ _ e, is_read_call e); reads_side.
Qed.

Lemma reads_only_getRow q p : respects reads_only (getRow q p).
Proof.
  apply respects_getRow with (permitted := λ _ e, is_read_call e); reads_side.
Qed.

Lemma reads_only_then {A B} (m : M A) (f : A → B) :
  respects reads_only m → respects reads_only (let* x := m in ret (f x)).
Proof.
  intros Hm. apply respects_bind; [apply reads_only_app | done |].
  intros. apply respects_ret, reads_only_nil.
Qed.

Lemma reads_only_getManyRows q params : respects reads_only (getManyRows q params).
Proof.
  apply respects_getManyRows with (permitted := λ _ e, is_read_call e); reads_side.
Qed.

Lemma never_begins_of_reads_only {A} (m : M A) s :
  respects reads_only m → never_begins m s.
Proof.
  intros Hm. unfold never_begins. destruct (m s) as [r s'] eqn:Hrun.
  destruct (Hm _ _ _ Hrun) as (ev & Tr & Hc & Hev). simpl.
  split; [done|]. exists ev. auto using read_calls_no_BEGIN.
Qed.

(** *** The writing functions *)

Ltac keeps_side :=
  first [ done | by (unfold keeps_cls; intros; congruence) ].

Lemma keeps_cls_verb sql : respects keeps_cls (let* st := stmt sql in stmt_run st None).
Proof. apply respects_verb with (permitted := λ _ _, True); keeps_side. Qed.

Lemma keeps_cls_wrap_run q p :
  respects keeps_cls (wrap (let* st := stmt q in stmt_run st (Some p)) q).
Proof.
  apply respects_wrap; try keeps_side.
  apply respects_bind; [keeps_side| |].
  - apply respects_stmt with (permitted := λ _ _, True); keeps_side.
  - intros. apply respects_stmt_run with (permitted := λ _ _, True); keeps_side.
Qed.

Lemma keeps_cls_getManyRows q params : respects keeps_cls (getManyRows q params).
Proof. apply respects_getManyRows with (permitted := λ _ _, True); keeps_side. Qed.

Lemma begins_then {A} (rest : M A) s :
  isTransactional s = true → isInTransaction s = false →
  respects keeps_cls rest →
  begins_first (startTransactionIfNecessary ;; rest) s.
Proof.
  intros HT HI Hrest. unfold begins_first.
  unfold bind at 1 2. rewrite startTransactionIfNecessary_begin by done.
  fold (opened s). unfold bind at 1 2.
  destruct (beginTransaction (opened s)) as [rb s1] eqn:Hb.
  assert (isInTransaction s1 = true) as HI1.
  { destruct (keeps_cls_verb _ _ _ _ Hb) as (ev0 & _ & Hcls).
    unfold keeps_cls in Hcls. unfold isInTransaction, flag. rewrite Hcls.
    apply flag_insert_eq. }
  destruct rb as [ri|e]; simpl.
  - destruct (rest s1) as [r s2] eqn:Hr.
    destruct (Hrest _ _ _ Hr) as (ev & Tr & Hcls). simpl. split; [|eauto].
    unfold keeps_cls in Hcls. unfold isInTransaction, flag in *. by rewrite Hcls.
  - split; [done|]. exists []. by rewrite app_nil_r.
Qed.

(** [beginTransaction] with [BEGIN] in the cache: the one call [BEGIN]. *)
Lemma beginTransaction_cached s h :
  statementCache s !! "BEGIN" = Some h →
  trace (beginTransaction s).2 = trace s ++ [BEGIN].
Proof.
  intros Hc. unfold beginTransaction, stmt, in_statementCache.
  unfold bind at 1 2. rewrite Hc.
  rewrite bool_decide_eq_true_2 by eauto. simpl.
  unfold bind, statementCache_get. rewrite Hc. simpl.
  unfold call. by destruct (eng_run h None (world s)).
Qed.

(** C8.  In every state, and so inside a scope whose transaction has not
    begun, each of the row helpers leaves the flags as they are and makes
    only read calls (prepare, [get], [all]): no [BEGIN].  In such a scope
    [execute], [executeMany] and [executeScript] begin by setting
    [isInTransaction] and calling [beginTransaction], whose only call is
    [BEGIN] when the statement is in the cache. *)
Theorem readers_never_begin (q : string) (p : Params) (params : list Value)
    (s : State) :
  (never_begins (getRow q p) s ∧ never_begins (getRows q p) s ∧
   never_begins (getRowOrNull q p) s ∧ never_begins (getValue q p) s ∧
   never_begins (getManyRows q params) s ∧ never_begins (getMap q p) s ∧
   never_begins (getColumn q p) s) ∧
  (isTransactional s = true → isInTransaction s = false →
   (begins_first (execute q p) s ∧ begins_first (executeMany q params) s ∧
    begins_first (executeScript q) s) ∧
   (∀ h, statementCache s !! "BEGIN" = Some h →
      trace (beginTransaction (opened s)).2 = trace s ++ [BEGIN])).
Proof.
  split.
  - split_and!; apply never_begins_of_reads_only.
    + apply reads_only_getRow.
    + apply reads_only_getRows.
    + apply reads_only_then, reads_only_getRows.
    + unfold getValue. apply respects_bind; [apply reads_only_app| |].
      * apply reads_only_then, reads_only_getRows.
      * intros []; apply respects_ret, reads_only_nil.
    + apply reads_only_getManyRows.
    + apply reads_only_then, reads_only_getRows.
    + unfold getColumn. apply respects_bind;
        [apply reads_only_app | apply reads_only_getRows |].
      intros []; apply respects_ret, reads_only_nil.
  - intros HT HI. split; [split_and!|].
    + apply begins_then; [done|done|apply keeps_cls_wrap_run].
    + apply begins_then; [done|done|].
      apply respects_bind; [keeps_side|apply keeps_cls_getManyRows|].
      intros; apply respects_ret; keeps_side.
    + apply begins_then; [done|done|].
      apply respects_wrap; try keeps_side. apply respects_throw; keeps_side.
    + intros h Hc. by apply (beginTransaction_cached (opened s) h).
Qed.

End Readers.

(** * The statement cache *)

Section StatementCache.
Context `{E : Engine}.

(** A text the cache holds is answered from the cache: nothing changes
    and nothing is called. *)
Lemma stmt_hit sql h s :
  statementCache s !! sql = Some h → stmt sql s = (Ok (Compiled sql h), s).
Proof.
  intros Hc. unfold stmt, in_statementCache, statementCache_get.
  unfold bind at 1. rewrite bool_decide_eq_true_2 by eauto. simpl.
  unfold bind, ret. by rewrite Hc.
Qed.

(** What [stmt] has done when it returns. *)
Lemma stmt_ok_inv sql s st s1 :
  stmt sql s = (Ok st, s1) →
  (∃ h, st = Compiled sql h ∧ statementCache s !! sql = Some h ∧ s1 = s) ∨
  (st = NotAStatement ∧ statementCache s !! sql = None ∧ s1 = s) ∨
  (∃ h c w, st = Compiled sql h ∧ statementCache s !! sql = None ∧
            dbConnection s = Some c ∧ eng_prepare c sql (world s) = (Ok h, w) ∧
            s1 = with_statementCache (<[sql := h]> (statementCache s))
                   (with_call (EvPrepare sql) w s)).
Proof.
  unfold stmt, in_statementCache. unfold bind at 1.
  destruct (bool_decide (is_Some (statementCache s !! sql))) eqn:Hin; simpl.
  - apply bool_decide_eq_true in Hin as [h Hh].
    unfold bind, ret, statementCache_get. rewrite Hh.
    intros [= <- <-]. left. eauto.
  - apply bool_decide_eq_false in Hin.
    assert (statementCache s !! sql = None) as Hnone.
    { destruct (statementCache s !! sql) eqn:Hl; [|done]. destruct Hin; eauto. }
    destruct (bool_decide (sql ∈ Object_prototype_names)); simpl.
    + unfold bind, ret, statementCache_get. rewrite Hnone.
      intros [= <- <-]. right. left. done.
    + cbv beta iota delta [bind dbConnection_prepare get_dbConnection call throw
        statementCache_set statementCache_get].
      destruct (dbConnection s) as [c|]; [|done].
      destruct (eng_prepare c sql (world s)) as [[h|e] w] eqn:Hp; [|done].
      simpl. rewrite lookup_insert_eq. intros [= <- <-].
      right. right. eauto 10.
Qed.

Lemma cache_kept_nil s : cache_kept s [] s.
Proof. by intros sql h Hh. Qed.

Lemma cache_kept_app s1 ev1 s2 ev2 s3 :
  cache_kept s1 ev1 s2 → cache_kept s2 ev2 s3 → cache_kept s1 (ev1 ++ ev2) s3.
Proof.
  intros H1 H2 sql h Hh. destruct (H1 _ _ Hh) as [Hh2 C1].
  destruct (H2 _ _ Hh2) as [Hh3 C2]. rewrite count_app. split; [done|lia].
Qed.

Lemma cache_kept_same s s' :
  statementCache s' = statementCache s → cache_kept s [] s'.
Proof. intros Hc sql h Hh. by rewrite Hc. Qed.

(** A call may be made when it does not prepare a text of the cache. *)
Definition fresh_call (s : State) (e : Event) : Prop :=
  ∀ sql, e = EvPrepare sql → statementCache s !! sql = None.

Lemma cache_kept_call s e w : fresh_call s e → cache_kept s [e] (with_call e w s).
Proof.
  intros He sql h Hh. split; [done|]. apply count_single_ne.
  intros ->. specialize (He sql eq_refl). congruence.
Qed.

Lemma cache_kept_insert s sql h :
  statementCache s !! sql = None →
  cache_kept s [] (with_statementCache (<[sql := h]> (statementCache s)) s).
Proof.
  intros Hnone sql' h' Hh. split; [|done]. simpl.
  rewrite lookup_insert_ne; [done|]. intros ->. congruence.
Qed.

Ltac cache_side :=
  first
    [ exact cache_kept_nil | exact cache_kept_app | exact cache_kept_call
    | exact cache_kept_insert
    | by (intros; apply cache_kept_same)
    | by (intros; intros ? [=])
    | by (intros ? ? ? ? [= ->]) ].

Lemma cache_kept_startTransactionIfNecessary :
  respects cache_kept startTransactionIfNecessary.
Proof.
  apply respects_startTransactionIfNecessary_free with (permitted := fresh_call);
    cache_side.
Qed.

Lemma cache_kept_transactional {A} (m : M A) :
  respects cache_kept m → respects cache_kept (transactional m).
Proof.
  apply respects_transactional_free with (permitted := fresh_call); cache_side.
Qed.

(** No caller takes a statement out of the cache or has a text of the
    cache prepared again. *)
Lemma cache_kept_client {A} (m : M A) : client m → respects cache_kept m.
Proof.
  apply respects_client with (permitted := fresh_call);
    first [ cache_side
          | exact cache_kept_startTransactionIfNecessary
          | intros; by apply cache_kept_transactional ].
Qed.

(** What [stmt] has done when it raises: the text was not in the cache,
    and either there is no connection, or [prepare] was called and
    raised. *)
Lemma stmt_raise_inv sql s e s1 :
  stmt sql s = (Raise e, s1) →
  statementCache s !! sql = None ∧ (sql ∉ Object_prototype_names) ∧
  ((dbConnection s = None ∧ s1 = s) ∨
   (∃ c w, dbConnection s = Some c ∧ eng_prepare c sql (world s) = (Raise e, w) ∧
           s1 = with_call (EvPrepare sql) w s)).
Proof.
  unfold stmt, in_statementCache. unfold bind at 1.
  destruct (bool_decide (is_Some (statementCache s !! sql))) eqn:Hin; simpl.
  - apply bool_decide_eq_true in Hin as [h Hh].
    unfold bind, ret, statementCache_get. by rewrite Hh.
  - apply bool_decide_eq_false in Hin.
    assert (statementCache s !! sql = None) as Hnone.
    { destruct (statementCache s !! sql) eqn:Hl; [|done]. destruct Hin; eauto. }
    destruct (bool_decide (sql ∈ Object_prototype_names)) eqn:Hp; simpl.
    + unfold bind, ret, statementCache_get. by rewrite Hnone.
    + apply bool_decide_eq_false in Hp.
      cbv beta iota delta [bind dbConnection_prepare get_dbConnection call throw
        statementCache_set statementCache_get].
      destruct (dbConnection s) as [c|].
      * destruct (eng_prepare c sql (world s)) as [[h|e'] w] eqn:Hprep; [done|].
        intros [= <- <-]. eauto 10.
      * intros [= <- <-]. auto.
Qed.

(** With the connection set, a text that is neither in the cache nor an
    inherited name is prepared. *)
Lemma stmt_miss_prepares sql s c :
  statementCache s !! sql = None → sql ∉ Object_prototype_names →
  dbConnection s = Some c →
  ∃ ev, trace (stmt sql s).2 = trace s ++ [EvPrepare sql] ++ ev.
Proof.
  intros Hnone Hp Hc. unfold stmt, in_statementCache. unfold bind at 1.
  rewrite Hnone, (bool_decide_eq_false_2 (sql ∈ Object_prototype_names)) by done.
  rewrite bool_decide_eq_false_2 by (by intros [? ?]).
  cbv beta iota delta [negb orb bind dbConnection_prepare get_dbConnection call throw
    statementCache_set statementCache_get]. rewrite Hc.
  destruct (eng_prepare c sql (world s)) as [[h|e'] w]; simpl; by exists [].
Qed.

(** C5 (as amended).  When [stmt(sql)] has returned, a second call with
    the same text returns the same statement and changes nothing, so calls
    nothing; the first call has prepared the text at most once; and a
    compiled statement stays: after anything a caller does, [stmt(sql)]
    still returns it, and the text has not been prepared again.  When
    [stmt(sql)] has raised, nothing was put in the cache, and if the
    connection is set [prepare] was called and the next call with the same
    text calls it again. *)
Theorem stmt_prepares_once (sql : string) (s : State) :
  (∀ st s1, stmt sql s = (Ok st, s1) →
     stmt sql s1 = (Ok st, s1) ∧
     (∃ ev, trace s1 = trace s ++ ev ∧ count (EvPrepare sql) ev ≤ 1) ∧
     (∀ A (m : M A) h, client m → st = Compiled sql h →
        stmt sql (m s1).2 = (Ok st, (m s1).2) ∧
        ∃ ev, trace (m s1).2 = trace s1 ++ ev ∧ count (EvPrepare sql) ev = 0)) ∧
  (∀ e s1, stmt sql s = (Raise e, s1) →
     statementCache s1 = statementCache s ∧ statementCache s1 !! sql = None ∧
     (dbConnection s = None → s1 = s) ∧
     (∀ c, dbConnection s = Some c →
        trace s1 = trace s ++ [EvPrepare sql] ∧
        ∃ ev, trace (stmt sql s1).2 = trace s1 ++ [EvPrepare sql] ++ ev)).
Proof.
  split.
  - intros st s1 H.
    assert (∀ h, st = Compiled sql h → statementCache s1 !! sql = Some h) as Hkept.
    { intros h ->.
      apply stmt_ok_inv in H
        as [(h' & [= <-] & Hh & ->)|[(? & _)|(h' & c & w & [= <-] & _ & _ & _ & ->)]];
        try done.
      simpl. apply lookup_insert_eq. }
    split; [|split].
    + pose proof H as H'.
      apply stmt_ok_inv in H'
        as [(h & -> & Hh & ->)|[(-> & _ & ->)|(h & c & w & -> & _ & _ & _ & ->)]].
      * by apply stmt_hit.
      * done.
      * apply stmt_hit. simpl. apply lookup_insert_eq.
    + apply stmt_ok_inv in H
        as [(h & -> & Hh & ->)|[(-> & _ & ->)|(h & c & w & -> & _ & _ & _ & ->)]].
      * exists []. rewrite app_nil_r, count_nil. auto.
      * exists []. rewrite app_nil_r, count_nil. auto.
      * exists [EvPrepare sql]. rewrite count_single_eq. auto.
    + intros A m h Hc ->. specialize (Hkept h eq_refl).
      destruct (m s1) as [r s2] eqn:Hm.
      destruct (cache_kept_client m Hc _ _ _ Hm) as (ev & Tr & Hk).
      destruct (Hk _ _ Hkept) as [Hh2 Hcount]. simpl.
      split; [by apply stmt_hit | eauto].
  - intros e s1 H.
    apply stmt_raise_inv in H
      as (Hnone & Hp & [[Hc ->]|(c & w & Hc & Hprep & ->)]).
    + split_and!; try done. intros c Hc'. congruence.
    + split_and!; try done; [congruence|].
      intros c' _. split; [done|].
      by apply (stmt_miss_prepares sql (with_call (EvPrepare sql) w s) c).
Qed.

End StatementCache.

(** C5, as stated, fails on a text that the engine does not compile:
    [stmt] raises without caching anything, and the second call with the
    same text prepares it again. *)
Lemma failed_prepare_is_repeated :
  let E := strict_engine ["SELEC 1"] in
  let s := start (Some 0) [] in
  let s1 := (stmt "SELEC 1" s).2 in
  (stmt "SELEC 1" s).1 = Raise (sample_error "SELEC 1") ∧
  (stmt "SELEC 1" s1).1 = Raise (sample_error "SELEC 1") ∧
  statementCache (stmt "SELEC 1" s1).2 = ∅ ∧
  trace (stmt "SELEC 1" s1).2 = [EvPrepare "SELEC 1"; EvPrepare "SELEC 1"] ∧
  ¬ count (EvPrepare "SELEC 1") (trace (stmt "SELEC 1" s1).2) ≤ 1.
Proof. vm_compute. repeat split; try done. lia. Qed.

Lemma stmt_prepares_once_witness :
  let E := sample_engine [] true in
  let s := start (Some 0) [] in
  let s1 := (stmt "SELECT 1" s).2 in
  stmt "SELECT 1" s = (Ok (Compiled "SELECT 1" 0), s1) ∧
  stmt "SELECT 1" s1 = (Ok (Compiled "SELECT 1" 0), s1).
Proof.
  intros E s s1.
  assert (stmt "SELECT 1" s = (Ok (Compiled "SELECT 1" 0), s1)) as H by reflexivity.
  split; [exact H|].
  exact (proj1 (proj1 (stmt_prepares_once "SELECT 1" s) _ s1 H)).
Defined.

(** * Nested scopes *)

Section NestedScopes.
Context `{E : Engine}.


(** *** Executions of a text *)

Lemma executions_split sql ev :
  executions sql ev = count (EvStmt OpRun sql None) ev + own_executions sql ev.
Proof.
  unfold executions, own_executions, count.
  induction ev as [|e ev IH]; [done|].
  rewrite !filter_cons.
  destruct (decide (executes sql e)) as [He|He];
    destruct (decide (e = EvStmt OpRun sql None)) as [Heq|Hne];
    destruct (decide (executes sql e ∧ e ≠ EvStmt OpRun sql None)) as [Hb|Hb];
    simpl; first [lia | exfalso; tauto | exfalso; subst e; simpl in *; tauto].
Qed.



(** *** The calls of [stmt] and of [beginTransaction] *)




(** *** A caller inside a scope begins once *)









(** *** The calls of the outermost call after its function *)




End NestedScopes.

(** A nesting that writes, from start-up: [BEGIN] is prepared and run
    once, by the first write, and [COMMIT] once, by the outermost call. *)
Lemma nested_write_issues_one_BEGIN :
  let E := sample_engine [] true in
  let out := transactional (transactional
               (execute "UPDATE notes SET title = 'x'" (PArr [])))
               (start (Some 0) []) in
  trace out.2 =
    [EvPrepare "BEGIN"; BEGIN; EvPrepare "UPDATE notes SET title = 'x'";
     EvStmt OpRun "UPDATE notes SET title = 'x'" (Some (PArr []));
     EvPrepare "COMMIT"; COMMIT; EvPing].
Proof. vm_compute. reflexivity. Qed.

(** A caller can hand the text [BEGIN] to [execute] itself: the statement
    is then run twice, once by the coordinator, without an argument, and
    once for the caller. *)
Lemma caller_can_execute_BEGIN :
  let E := sample_engine [] true in
  let out := transactional (transactional (execute "BEGIN" (PArr [])))
               (start (Some 0) []) in
  trace out.2 =
    [EvPrepare "BEGIN"; BEGIN; EvStmt OpRun "BEGIN" (Some (PArr []));
     EvPrepare "COMMIT"; COMMIT; EvPing] ∧
  count BEGIN (trace out.2) = 1 ∧
  executions "BEGIN" (trace out.2) = 2 ∧
  own_executions "BEGIN" (trace out.2) = 1.
Proof. vm_compute. repeat split; reflexivity. Qed.


(** * The chunked executor *)

Section Chunks.
Context `{E : Engine}.

Lemma getManyRows_loop_step n query params results :
  getManyRows_loop (S n) query params results =
  if bool_decide (0 < length params) then
    let curParams := take (length params `min` PARAM_LIMIT) params in
    let params' := drop (length curParams) params in
    let curQuery := replace_marker query (questionMarks_of curParams) in
    let* rows := getRows curQuery (PObj (curParamsObj_of curParams)) in
    getManyRows_loop n query params' (results ++ rows)
  else ret results.
Proof. done. Qed.

Lemma getManyRows_loop_nil n query results :
  getManyRows_loop n query [] results = ret results.
Proof. by destruct n. Qed.

(** A list that takes two rounds: [a] parameters, the limit, in the
    first and the [b] others in the second. *)
Lemma getManyRows_loop_two_rounds n query params results s a b :
  a = PARAM_LIMIT → 0 < b ≤ PARAM_LIMIT → length params = a + b →
  length (take a params) = a → length (drop a params) = b →
  getManyRows_loop (S (S n)) query params results s =
  (let* rows1 := getRows (replace_marker query (questionMarks_of (take a params)))
                   (PObj (curParamsObj_of (take a params))) in
   let* rows2 := getRows (replace_marker query (questionMarks_of (drop a params)))
                   (PObj (curParamsObj_of (drop a params))) in
   ret (results ++ rows1 ++ rows2)) s.
Proof.
  intros Ha Hb Hlen Hfirst Hsecond.
  rewrite getManyRows_loop_step.
  rewrite bool_decide_eq_true_2 by lia. cbv zeta.
  replace (length params `min` PARAM_LIMIT) with a by lia.
  rewrite Hfirst.
  set (get1 := getRows (replace_marker query (questionMarks_of (take a params))) _).
  destruct (get1 s) as [[rows1|e] s1] eqn:H1; cycle 1.
  { by rewrite !(bind_raise _ _ _ _ _ H1). }
  rewrite !(bind_ok _ _ _ _ _ H1).
  rewrite getManyRows_loop_step.
  rewrite bool_decide_eq_true_2 by lia. cbv zeta.
  replace (length (drop a params) `min` PARAM_LIMIT) with b by lia.
  rewrite (take_ge (drop a params) b) by lia. rewrite Hsecond.
  rewrite (drop_ge (drop a params) b) by lia.
  set (get2 := getRows (replace_marker query (questionMarks_of (drop a params))) _).
  destruct (get2 s1) as [[rows2|e] s2] eqn:H2; cycle 1.
  { by rewrite !(bind_raise _ _ _ _ _ H2). }
  rewrite !(bind_ok _ _ _ _ _ H2).
  rewrite getManyRows_loop_nil. unfold ret. by rewrite <- app_assoc.
Qed.

(** *** The object of named parameters *)

Global Instance param_name_inj : Inj (=) (=) param_name.
Proof.
  intros j j' H. unfold param_name in H.
  apply (inj (String.app "param")) in H. by apply (inj pretty) in H.
Qed.

Lemma obj_set_fresh (o : Obj) k v :
  k ∉ Object_keys o → obj_set o k v = o ++ [(k, v)].
Proof.
  intros Hk. rewrite <- (app_nil_r o) at 1. by rewrite obj_set_app_skip.
Qed.

Lemma foldl_param_names a (acc : Obj) (l : list Value) :
  (∀ k, k ∈ Object_keys acc → ∃ j, j < a ∧ k = param_name j) →
  foldl (λ obj '(j, param), obj_set obj ("param" +:+ pretty j) param)
        acc (zip (seq a (length l)) l)
  = acc ++ zip (param_name <$> seq a (length l)) l.
Proof.
  revert a acc. induction l as [|x l IH]; intros a acc Hacc; simpl.
  - by rewrite app_nil_r.
  - fold (param_name a). rewrite obj_set_fresh.
    + rewrite IH; [by rewrite <- app_assoc|].
      intros k Hk. unfold Object_keys in Hk. rewrite fmap_app in Hk.
      apply elem_of_app in Hk as [Hk|Hk].
      * destruct (Hacc _ Hk) as (j & ? & ->). exists j. split; [lia|done].
      * apply list_elem_of_singleton in Hk as ->. exists a. split; [lia|done].
    + intros Hk. destruct (Hacc _ Hk) as (j & Hj & Heq).
      apply (inj param_name) in Heq. lia.
Qed.

(** [curParamsObj] holds the parameters in their order under the names
    [param1], [param2], ... *)
Lemma curParamsObj_of_zip (curParams : list Value) :
  curParamsObj_of curParams =
  zip (param_name <$> seq 1 (length curParams)) curParams.
Proof.
  unfold curParamsObj_of. rewrite (foldl_param_names 1 []); [done|].
  intros k Hk. by apply elem_of_nil in Hk.
Qed.

Lemma curParamsObj_of_length (curParams : list Value) :
  length (curParamsObj_of curParams) = length curParams.
Proof.
  rewrite curParamsObj_of_zip, length_zip, length_fmap, length_seq. lia.
Qed.

(** *** The calls of [getRows] when it returns *)

Lemma wrap_ok_inv {A} (func : M A) query s a s' :
  wrap func query s = (Ok a, s') →
  ∃ s1, func s = (Ok a, s1) ∧ trace s' = trace s1.
Proof.
  unfold wrap, get_dbConnection. unfold bind at 1.
  destruct (dbConnection s) as [c|]; [|done]. intros H.
  apply try_catch_inv in H as [(a' & H & [= <-])|(e & s2 & _ & H)]; cycle 1.
  { unfold bind, log_error, throw in H. done. }
  unfold Date_now in H. unfold bind at 1 2 in H.
  destruct (func s) as [[r|e] s1] eqn:Hf; [|done].
  exists s1. unfold bind at 1 in H.
  destruct (bool_decide _); [destruct (includes _ _)|];
    unfold bind, log_info, ret in H; injection H as <- <-; done.
Qed.

Lemma getRows_ok_trace query params s rows s' :
  getRows query params s = (Ok rows, s') →
  ∃ pre, trace s' = trace s ++ pre ++ [EvStmt OpAll query (Some params)] ∧
         all_calls pre = [].
Proof.
  intros H. apply wrap_ok_inv in H as (s1 & H & ->).
  apply bind_inv in H as [(st & s2 & Hs & Hall)|(e & _ & ?)]; [|done].
  assert (∃ pre, trace s2 = trace s ++ pre ∧ all_calls pre = []) as (pre & T2 & Hpre).
  { apply stmt_ok_inv in Hs
      as [(h & _ & _ & ->)|[(_ & _ & ->)|(h & c & w & _ & _ & _ & _ & ->)]].
    - exists []. by rewrite app_nil_r.
    - exists []. by rewrite app_nil_r.
    - by exists [EvPrepare query]. }
  destruct st as [src h|]; [|done].
  pose proof (stmt_source _ _ _ _ _ Hs) as ->.
  unfold stmt_all, call in Hall.
  destruct (eng_all h (Some params) (world s2)) as [r w]. injection Hall as -> <-.
  exists pre. simpl. by rewrite T2, <- app_assoc.
Qed.

(** C3 (as amended).  For a list of 1500 parameters [getManyRows] is two
    calls of [getRows] in a row, the first with the text and the object
    made from the first 900 parameters, the second with those made from
    the other 600, and it returns the rows of the first followed by the
    rows of the second; when it returns, the executions among its calls
    are exactly these two, in this order.  For the empty list it returns
    the empty sequence and changes nothing.  [executeMany] runs
    [startTransactionIfNecessary] and then [getManyRows], and returns
    nothing: for the empty list it is [startTransactionIfNecessary]
    alone, which calls nothing outside of a scope and once the
    transaction is open. *)
Theorem getManyRows_two_batches (query : string) (params : list Value) (s : State) :
  length params = 1500 →
  let first := take 900 params in
  let second := drop 900 params in
  let query1 := replace_marker query (questionMarks_of first) in
  let query2 := replace_marker query (questionMarks_of second) in
  let bound1 := PObj (curParamsObj_of first) in
  let bound2 := PObj (curParamsObj_of second) in
  getManyRows query params s =
    (let* rows1 := getRows query1 bound1 in
     let* rows2 := getRows query2 bound2 in
     ret (rows1 ++ rows2)) s
  ∧ length (curParamsObj_of first) = 900 ∧ length (curParamsObj_of second) = 600
  ∧ (∀ rows, (getManyRows query params s).1 = Ok rows →
       ∃ ev, trace (getManyRows query params s).2 = trace s ++ ev ∧
             all_calls ev = [(query1, bound1); (query2, bound2)])
  ∧ executeMany query params s =
      (let (r, s') := (startTransactionIfNecessary ;; getManyRows query params) s in
       (match r with Ok _ => Ok tt | Raise e => Raise e end, s'))
  ∧ getManyRows query [] s = (Ok [], s)
  ∧ executeMany query [] s = startTransactionIfNecessary s
  ∧ (isTransactional s = false ∨ isInTransaction s = true →
     executeMany query [] s = (Ok tt, s)).
Proof.
  intros Hlen first second query1 query2 bound1 bound2.
  assert (length first = 900) as Hfirst
    by (unfold first; rewrite length_take; lia).
  assert (length second = 600) as Hsecond
    by (unfold second; rewrite length_drop; lia).
  assert (getManyRows query params s =
    (let* rows1 := getRows query1 bound1 in
     let* rows2 := getRows query2 bound2 in
     ret (rows1 ++ rows2)) s) as Hrun.
  { assert (∃ n, length params = S (S n)) as [n Hn] by (exists 1498; lia).
    unfold getManyRows. rewrite Hn.
    apply (getManyRows_loop_two_rounds n query params [] s 900 600);
      [reflexivity | unfold PARAM_LIMIT; lia | lia | exact Hfirst | exact Hsecond]. }
  assert (∀ s0, executeMany query [] s0 = startTransactionIfNecessary s0) as Hempty.
  { intros s0. unfold executeMany. unfold bind at 1.
    by destruct (startTransactionIfNecessary s0) as [[[]|e] s1]. }
  split; [exact Hrun|]. split; [by rewrite curParamsObj_of_length|].
  split; [by rewrite curParamsObj_of_length|]. split; [|split; [|split; [done|split]]].
  - intros rows. rewrite Hrun. unfold bind at 1 3.
    destruct (getRows query1 bound1 s) as [[rows1|e] s1] eqn:H1; [|done].
    unfold bind at 1 2.
    destruct (getRows query2 bound2 s1) as [[rows2|e] s2] eqn:H2; [|done].
    intros _. simpl.
    apply getRows_ok_trace in H1 as (pre1 & T1 & P1).
    apply getRows_ok_trace in H2 as (pre2 & T2 & P2).
    exists ((pre1 ++ [EvStmt OpAll query1 (Some bound1)])
            ++ pre2 ++ [EvStmt OpAll query2 (Some bound2)]).
    split; [by rewrite T2, T1, <- !app_assoc|].
    unfold all_calls in *. rewrite !omap_app, P1, P2. done.
  - unfold executeMany. unfold bind at 1 3.
    destruct (startTransactionIfNecessary s) as [[[]|e] s1]; [|done].
    unfold bind. by destruct (getManyRows query params s1) as [[rows|e] s2].
  - apply Hempty.
  - intros Hidle. rewrite Hempty. by apply startTransactionIfNecessary_idle.
Qed.

End Chunks.

(** C3, as stated, fails for the empty list inside a scope whose
    transaction has not begun: [executeMany] prepares and issues
    [BEGIN]. *)
Lemma executeMany_empty_in_scope_issues_BEGIN :
  let E := sample_engine [] true in
  let s := entered (start (Some 0) []) in
  (executeMany "DELETE FROM notes WHERE noteId IN (???)" [] s).1 = Ok tt ∧
  trace (executeMany "DELETE FROM notes WHERE noteId IN (???)" [] s).2
  = [EvPrepare "BEGIN"; BEGIN] ∧
  trace (executeMany "DELETE FROM notes WHERE noteId IN (???)" [] s).2 ≠ trace s.
Proof. vm_compute. repeat split; done. Qed.

Lemma getManyRows_two_batches_witness :
  let E := sample_engine [] true in
  let params := replicate 1500 (VNum 5) in
  let s := start (Some 0) [] in
  length params = 1500 ∧
  length (curParamsObj_of (take 900 params)) = 900 ∧
  length (curParamsObj_of (drop 900 params)) = 600 ∧
  getManyRows "SELECT noteId FROM notes WHERE noteId IN (???)" [] s = (Ok [], s).
Proof.
  intros E params s.
  assert (length params = 1500) as Hlen by apply length_replicate.
  split; [exact Hlen|].
  destruct (getManyRows_two_batches
    "SELECT noteId FROM notes WHERE noteId IN (???)" params s Hlen)
    as (_ & H1 & H2 & _ & _ & H3 & _).
  exact (conj H1 (conj H2 H3)).
Defined.

(** * More on the module *)

(** ** Query wrapping *)

(** The sample engine with a clock that moves on by [step] milliseconds
    with every statement prepared. *)
Definition ticking_engine (step : Z) : Engine :=
  {| World := list string;
     eng_prepare := fun _ sql w => (Ok (length w), w ++ [sql]);
     eng_run := fun h _ w => (Ok {| changes := 1; lastInsertRowid := 7 |}, w);
     eng_get := fun _ _ w => (Ok None, w);
     eng_all := fun _ args w => (Ok [[("n", VNum (Z.of_nat (params_size args)))]], w);
     eng_conn_run := fun _ _ _ w => (Ok tt, w);
     ws_sendPingToAllClients := fun w => (Ok tt, w);
     eng_now := fun w => (step * Z.of_nat (length w))%Z;
     stack_trace := fun name message => name +:+ ": " +:+ message |}.

Section Wrap.
Context `{E : Engine}.

Lemma wrap_raise_run {A} (func : M A) (query : string) (s : State)
    (c : Conn) (e : Exn) (s1 : State) :
  dbConnection s = Some c → func s = (Raise e, s1) →
  wrap func query s =
    (Raise (rewrapped e),
     with_log (log s1 ++ [(LError, "Error executing query. Inner exception: "
                                   +:+ exn_stack e +:+ exn_stack (new_Error ""))]) s1).
Proof.
  intros Hc Hf.
  unfold wrap, get_dbConnection. unfold bind at 1. rewrite Hc.
  unfold try_catch, Date_now. unfold bind at 1 2. by rewrite Hf.
Qed.

(** X1.  With the connection set, an error [e] of the wrapped function
    never leaves [wrap] as it is: what is raised is a new [Error] whose
    message is the stack of [e], after exactly one error entry in the log
    that carries the stack of [e]; nothing else changes on top of what the
    function did. *)
Theorem wrap_rewraps_error {A} (func : M A) (query : string) (s : State)
    (c : Conn) (e : Exn) (s1 : State) :
  dbConnection s = Some c → func s = (Raise e, s1) →
  wrap func query s =
    (Raise (rewrapped e),
     with_log (log s1 ++ [(LError, "Error executing query. Inner exception: "
                                   +:+ exn_stack e +:+ exn_stack (new_Error ""))]) s1)
  ∧ exn_name (rewrapped e) = "Error"
  ∧ exn_message (rewrapped e) = exn_stack e.
Proof.
  intros Hc Hf. split; [|done]. by apply (wrap_raise_run _ _ _ c).
Qed.

(** X2.  With the connection set, when the wrapped function returns [a]
    so does [wrap], and on top of what the function did only the log may
    change: it gains one info entry exactly when the clock has moved on
    by 300 ms or more (300 itself counts), and for a text that contains
    [WITH RECURSIVE] the entry does not carry the text. *)
Theorem wrap_logs_slow_queries {A} (func : M A) (query : string) (s : State)
    (c : Conn) (a : A) (s1 : State) :
  dbConnection s = Some c → func s = (Ok a, s1) →
  let ms := (eng_now (world s1) - eng_now (world s))%Z in
  ((ms < 300)%Z → wrap func query s = (Ok a, s1)) ∧
  ((300 ≤ ms)%Z → includes query "WITH RECURSIVE" = true →
     wrap func query s =
       (Ok a, with_log (log s1 ++
          [(LInfo, "Slow recursive query took " +:+ pretty ms +:+ "ms.")]) s1)) ∧
  ((300 ≤ ms)%Z → includes query "WITH RECURSIVE" = false →
     wrap func query s =
       (Ok a, with_log (log s1 ++
          [(LInfo, "Slow query took " +:+ pretty ms +:+ "ms: " +:+ query)]) s1)).
Proof.
  intros Hc Hf ms.
  assert (wrap func query s =
    ((if bool_decide (300 ≤ ms)%Z then
        if includes query "WITH RECURSIVE" then
          log_info ("Slow recursive query took " +:+ pretty ms +:+ "ms.")
        else log_info ("Slow query took " +:+ pretty ms +:+ "ms: " +:+ query)
      else ret tt) ;; ret a) s1) as ->.
  { unfold wrap, get_dbConnection. unfold bind at 1. rewrite Hc.
    unfold try_catch, Date_now. unfold bind at 1 2. rewrite Hf.
    unfold bind at 1. fold ms.
    destruct (bool_decide (300 ≤ ms)%Z); [destruct (includes _ _)|]; done. }
  split; [|split].
  - intros Hms. by rewrite bool_decide_eq_false_2 by lia.
  - intros Hms ->. by rewrite bool_decide_eq_true_2 by lia.
  - intros Hms ->. by rewrite bool_decide_eq_true_2 by lia.
Qed.

End Wrap.

Lemma wrap_rewraps_error_witness :
  let E := sample_engine [] true in
  let s := start (Some 0) [] in
  dbConnection s = Some 0 ∧
  (throw boom : M unit) s = (Raise boom, s) ∧
  (wrap (throw boom : M unit) "SELECT 1" s).1 =
    Raise {| exn_name := "Error"; exn_message := "Error: boom"; exn_stack := "Error: " |}.
Proof.
  intros E s. split; [reflexivity|]. split; [reflexivity|].
  destruct (wrap_rewraps_error (throw boom : M unit) "SELECT 1" s 0 boom s
              eq_refl eq_refl) as [-> _].
  reflexivity.
Defined.

(** A statement that takes 300 ms to prepare is logged as slow. *)
Lemma wrap_logs_slow_queries_witness :
  let E := ticking_engine 300 in
  let s := start (Some 0) [] in
  let func := let* st := stmt "SELECT 1" in stmt_all st (PArr []) in
  dbConnection s = Some 0 ∧
  func s = (Ok [[("n", VNum 0)]], (func s).2) ∧
  log (wrap func "SELECT 1" s).2 = [(LInfo, "Slow query took 300ms: SELECT 1")].
Proof.
  intros E s func.
  assert (func s = (Ok [[("n", VNum 0)]], (func s).2)) as Hf by reflexivity.
  split; [reflexivity|]. split; [exact Hf|].
  destruct (wrap_logs_slow_queries func "SELECT 1" s 0 _ _ eq_refl Hf)
    as (_ & _ & Hslow).
  rewrite Hslow; [reflexivity | vm_compute; discriminate | reflexivity].
Defined.

(** ** The chunked executor on any list *)

(** The values bound by an execution. *)
Definition bound_values (c : string * Params) : list Value :=
  match c.2 with
  | PObj o => Object_values o
  | PArr l => l
  end.

Section ChunksInGeneral.
Context `{E : Engine}.

(** The rows gathered so far only stand in front of those to come. *)
Lemma getManyRows_loop_results n query params results s :
  getManyRows_loop n query params results s =
  (let* rows := getManyRows_loop n query params [] in ret (results ++ rows)) s.
Proof.
  revert params results s. induction n as [|n IH]; intros params results s.
  - simpl. unfold bind, ret. by rewrite app_nil_r.
  - rewrite !getManyRows_loop_step. case_bool_decide; cycle 1.
    { unfold bind, ret. by rewrite app_nil_r. }
    cbv zeta. unfold bind at 1 2 3.
    destruct (getRows _ _ s) as [[rows|e] s1]; [|done].
    rewrite (IH _ (results ++ rows)), (IH _ ([] ++ rows)). unfold bind.
    destruct (getManyRows_loop n query _ [] s1) as [[rest|e] s2]; [|done].
    unfold ret. by rewrite app_assoc.
Qed.

(** Any number of rounds that is at least the length of the list will do. *)
Lemma getManyRows_loop_rounds n m query params results s :
  length params ≤ n → length params ≤ m →
  getManyRows_loop n query params results s =
  getManyRows_loop m query params results s.
Proof.
  revert m params results s. induction n as [|n IH]; intros m params results s Hn Hm.
  - destruct params; [|simpl in Hn; lia]. by rewrite !getManyRows_loop_nil.
  - destruct m as [|m].
    { destruct params; [|simpl in Hm; lia]. by rewrite !getManyRows_loop_nil. }
    rewrite !getManyRows_loop_step. case_bool_decide; [|done].
    cbv zeta. unfold bind.
    destruct (getRows _ _ s) as [[rows|e] s1]; [|done].
    apply IH; rewrite length_drop, length_take; unfold PARAM_LIMIT; lia.
Qed.

Lemma getManyRows_unfold (query : string) (params : list Value) (s : State) :
  params ≠ [] →
  getManyRows query params s =
  (let* rows := getRows (replace_marker query (questionMarks_of (take PARAM_LIMIT params)))
                  (PObj (curParamsObj_of (take PARAM_LIMIT params))) in
   let* rest := getManyRows query (drop PARAM_LIMIT params) in
   ret (rows ++ rest)) s.
Proof.
  intros Hne. set (curParams := take PARAM_LIMIT params).
  unfold getManyRows at 1.
  destruct params as [|v params]; [done|]. clear Hne.
  cbn [length]. rewrite getManyRows_loop_step.
  rewrite bool_decide_eq_true_2 by (simpl; lia). cbv zeta.
  set (l := v :: params) in *.
  assert (take (length l `min` PARAM_LIMIT) l = curParams) as ->.
  { unfold curParams.
    destruct (decide (length l ≤ PARAM_LIMIT)).
    - rewrite Nat.min_l by done. by rewrite !take_ge by lia.
    - by rewrite Nat.min_r by lia. }
  assert (drop (length curParams) l = drop PARAM_LIMIT l) as ->.
  { unfold curParams. rewrite length_take.
    destruct (decide (length l ≤ PARAM_LIMIT)).
    - rewrite Nat.min_r by done. by rewrite !drop_ge by lia.
    - by rewrite Nat.min_l by lia. }
  set (get := getRows _ _).
  destruct (get s) as [[rows|e] s1] eqn:H1; cycle 1.
  { by rewrite !(bind_raise _ _ _ _ _ H1). }
  rewrite !(bind_ok _ _ _ _ _ H1).
  rewrite getManyRows_loop_results. unfold getManyRows.
  unfold bind at 1 2.
  rewrite (getManyRows_loop_rounds _ (length (drop PARAM_LIMIT l)));
    [done| |done].
  rewrite length_drop. unfold l, PARAM_LIMIT. simpl. lia.
Qed.

(** X3.  [getManyRows] on a list that is not empty is [getRows] on its
    first [PARAM_LIMIT] parameters (all of them if there are fewer), with
    the marker of the text replaced for them, followed by [getManyRows] on
    the others; the rows come in this order, and an error of either part
    ends the whole.  On the empty list it returns no row and calls
    nothing. *)
Theorem getManyRows_by_chunks (query : string) (params : list Value) (s : State) :
  getManyRows query [] s = (Ok [], s) ∧
  (params ≠ [] →
   let curParams := take PARAM_LIMIT params in
   getManyRows query params s =
   (let* rows := getRows (replace_marker query (questionMarks_of curParams))
                   (PObj (curParamsObj_of curParams)) in
    let* rest := getManyRows query (drop PARAM_LIMIT params) in
    ret (rows ++ rest)) s).
Proof.
  split; [done|]. intros Hne curParams. by apply getManyRows_unfold.
Qed.

(** *** What is bound *)

Lemma Object_values_curParamsObj_of (curParams : list Value) :
  Object_values (curParamsObj_of curParams) = curParams.
Proof.
  rewrite curParamsObj_of_zip. unfold Object_values.
  apply snd_zip. by rewrite length_fmap, length_seq.
Qed.

Lemma Object_keys_curParamsObj_of (curParams : list Value) :
  Object_keys (curParamsObj_of curParams)
  = param_name <$> seq 1 (length curParams).
Proof.
  rewrite curParamsObj_of_zip. unfold Object_keys.
  apply fst_zip. by rewrite length_fmap, length_seq.
Qed.

(** X4.  The object bound for a batch has one property for each
    parameter, named [param1], [param2], ... without repetition and
    holding the parameters in their order; and the markers written into
    the text are these very names, each after a colon, in the same
    order. *)
Theorem named_parameters_match_markers (curParams : list Value) :
  Object_values (curParamsObj_of curParams) = curParams ∧
  NoDup (Object_keys (curParamsObj_of curParams)) ∧
  length (curParamsObj_of curParams) = length curParams ∧
  questionMarks_of curParams
  = join "," ((λ k, ":" +:+ k) <$> Object_keys (curParamsObj_of curParams)).
Proof.
  split; [apply Object_values_curParamsObj_of|].
  rewrite Object_keys_curParamsObj_of. split; [|split].
  - apply (NoDup_fmap_2 _), NoDup_seq.
  - apply curParamsObj_of_length.
  - unfold questionMarks_of. by rewrite <- list_fmap_compose.
Qed.

(** X5.  When [getManyRows] returns, the executions among its calls bind,
    batch after batch, exactly the parameters it was given, each once and
    in their order; no batch is empty and none has more than
    [PARAM_LIMIT] values. *)
Theorem getManyRows_binds_every_parameter (query : string) (params : list Value)
    (s : State) (rows : list Row) (s' : State) :
  getManyRows query params s = (Ok rows, s') →
  ∃ ev, trace s' = trace s ++ ev ∧
        mjoin (bound_values <$> all_calls ev) = params ∧
        Forall (λ c, 0 < length (bound_values c) ≤ PARAM_LIMIT) (all_calls ev).
Proof.
  remember (length params) as n eqn:Hn.
  revert params Hn s rows s'.
  induction (lt_wf n) as [n _ IH]. intros params -> s rows s' H.
  destruct (decide (params = [])) as [->|Hne].
  { injection H as <- <-. exists []. by rewrite app_nil_r. }
  rewrite (getManyRows_unfold query params s Hne) in H.
  apply bind_inv in H as [(rows1 & s1 & H1 & H)|(e & _ & ?)]; [|done].
  apply bind_inv in H as [(rest & s2 & H2 & H)|(e & _ & ?)]; [|done].
  injection H as <- <-.
  apply getRows_ok_trace in H1 as (pre & T1 & Hpre).
  assert (length (take PARAM_LIMIT params) ≠ 0) as Hpos.
  { rewrite length_take. destruct params; [done|]. unfold PARAM_LIMIT. simpl. lia. }
  assert (length (drop PARAM_LIMIT params) < length params) as Hlt.
  { rewrite length_drop. rewrite length_take in Hpos. unfold PARAM_LIMIT in *. lia. }
  destruct (IH _ Hlt _ eq_refl _ _ _ H2) as (ev2 & T2 & Hall & Hsize).
  eexists ((pre ++ [EvStmt OpAll _ (Some (PObj (curParamsObj_of
              (take PARAM_LIMIT params))))]) ++ ev2).
  split; [by rewrite T2, T1, <- !app_assoc|].
  assert (∀ q p, all_calls ((pre ++ [EvStmt OpAll q (Some p)]) ++ ev2)
                 = (q, p) :: all_calls ev2) as ->.
  { intros q p. unfold all_calls in *. by rewrite !omap_app, Hpre. }
  rewrite fmap_cons. split.
  - change (mjoin (?x :: ?l)) with (x ++ mjoin l). rewrite Hall.
    unfold bound_values. cbn [snd].
    by rewrite Object_values_curParamsObj_of, take_drop.
  - constructor; [|done]. unfold bound_values. cbn [snd].
    rewrite Object_values_curParamsObj_of. rewrite length_take in *. lia.
Qed.

End ChunksInGeneral.

Lemma getManyRows_binds_every_parameter_witness :
  let E := sample_engine [] true in
  let s := start (Some 0) [] in
  let out := getManyRows "SELECT ???" [VNum 1; VNum 2] s in
  out = (Ok [[("n", VNum 2)]], out.2) ∧
  ∃ ev, trace out.2 = trace s ++ ev ∧
        mjoin (bound_values <$> all_calls ev) = [VNum 1; VNum 2].
Proof.
  intros E s out.
  assert (out = (Ok [[("n", VNum 2)]], out.2)) as H by reflexivity.
  split; [exact H|].
  destruct (getManyRows_binds_every_parameter _ _ _ _ _ H) as (ev & T & Hb & _).
  exists ev. split; assumption.
Defined.

Lemma getManyRows_by_chunks_witness :
  let E := sample_engine [] true in
  let s := start (Some 0) [] in
  ([VNum 1; VNum 2] : list Value) ≠ [] ∧
  getManyRows "SELECT ???" [VNum 1; VNum 2] s =
  (let* rows := getRows "SELECT :param1,:param2"
                  (PObj [("param1", VNum 1); ("param2", VNum 2)]) in
   let* rest := getManyRows "SELECT ???" [] in
   ret (rows ++ rest)) s.
Proof.
  intros E s.
  assert (([VNum 1; VNum 2] : list Value) ≠ []) as Hne by discriminate.
  split; [exact Hne|].
  exact (proj2 (getManyRows_by_chunks "SELECT ???" [VNum 1; VNum 2] s) Hne).
Defined.

(** ** The coordinator, further *)

(** Both flags down: outside of any scope. *)
Definition idle `{E : Engine} (s : State) : Prop :=
  isTransactional s = false ∧ isInTransaction s = false.

(** A computation that, started outside of any scope, ends outside of any
    scope. *)
Definition stays_idle `{E : Engine} (s : State) (ev : list Event) (s' : State) : Prop :=
  idle s → idle s'.

Section CoordinatorFurther.
Context `{E : Engine}.

(** X6.  A caller that runs inside a scope, whatever it calls and however
    deep it nests [transactional], leaves the scope marked, and the
    coordinator runs no [COMMIT] and no [ROLLBACK] and sends no
    notification for it, and runs at most one [BEGIN], none when the
    transaction is already open, which then stays open.  So among the
    calls of the caller every execution of the text [COMMIT] or
    [ROLLBACK], and every execution of [BEGIN] but that one, is a
    statement that the caller itself handed to an exported function. *)
Theorem callers_in_scope_never_commit {A} (m : M A) (s : State) :
  client m → isTransactional s = true →
  isTransactional (m s).2 = true ∧
  (isInTransaction s = true → isInTransaction (m s).2 = true) ∧
  ∃ ev, trace (m s).2 = trace s ++ ev ∧
        count COMMIT ev = 0 ∧ count ROLLBACK ev = 0 ∧ count EvPing ev = 0 ∧
        count BEGIN ev ≤ 1 ∧ (isInTransaction s = true → count BEGIN ev = 0) ∧
        executions "COMMIT" ev = own_executions "COMMIT" ev ∧
        executions "ROLLBACK" ev = own_executions "ROLLBACK" ev ∧
        executions "BEGIN" ev = count BEGIN ev + own_executions "BEGIN" ev.
Proof.
  intros Hc HT. destruct (m s) as [r s'] eqn:Hm.
  destruct (in_scope_client m Hc _ _ _ Hm) as (ev & Tr & Hin).
  destruct (Hin HT) as (HT' & C & R & P & B & I & _). simpl.
  split; [done|]. split; [intros HI; by destruct (I HI)|].
  exists ev. rewrite !executions_split. fold BEGIN COMMIT ROLLBACK.
  split_and!; try done; try lia. intros HI; by destruct (I HI).
Qed.

Lemma stays_idle_same_cls s s' : cls_ns s' = cls_ns s → stays_idle s [] s'.
Proof.
  intros Hc. unfold stays_idle, idle, isTransactional, isInTransaction, flag.
  by rewrite Hc.
Qed.

Lemma stays_idle_client {A} (m : M A) : client m → respects stays_idle m.
Proof.
  apply respects_client with (permitted := λ _ _, True);
    try (by (intros; apply stays_idle_same_cls)).
  - intros s1 ev1 s2 ev2 s3 H1 H2 Hi. auto.
  - done.
  - done.
  - done.
  - done.
  - done.
  - intros s r s' H.
    destruct (extends_startTransactionIfNecessary _ _ _ H) as (ev & Tr & _).
    exists ev. split; [done|]. intros [HT HI].
    rewrite startTransactionIfNecessary_idle in H by auto.
    injection H as <- <-. by split.
  - intros A0 m0 Hm s r s' H.
    destruct (extends_transactional m0 (extends_of_respects _ _ Hm) _ _ _ H)
      as (ev & Tr & _).
    exists ev. split; [done|]. intros [HT HI].
    rewrite transactional_outermost in H by done.
    destruct (try_catch _ _ _) as [r' s2]. injection H as <- <-.
    apply cleared_flags.
Qed.

(** X7.  Whatever a caller does, started outside of any scope it ends
    outside of any scope: both flags are down again when it returns or
    raises. *)
Theorem callers_return_to_idle {A} (m : M A) (s : State) :
  client m → isTransactional s = false → isInTransaction s = false →
  isTransactional (m s).2 = false ∧ isInTransaction (m s).2 = false.
Proof.
  intros Hc HT HI. destruct (m s) as [r s'] eqn:Hm.
  destruct (stays_idle_client m Hc _ _ _ Hm) as (ev & _ & Hidle).
  by apply Hidle.
Qed.

(** X8.  No caller breaks the invariant of the flags: if [isInTransaction]
    implies [isTransactional] before, it does after. *)
Theorem callers_keep_flag_invariant {A} (m : M A) (s : State) :
  client m →
  (isInTransaction s = true → isTransactional s = true) →
  isInTransaction (m s).2 = true → isTransactional (m s).2 = true.
Proof.
  intros Hc Hinv. destruct (m s) as [r s'] eqn:Hm. simpl.
  destruct (isTransactional s) eqn:HT.
  - destruct (in_scope_client m Hc _ _ _ Hm) as (ev & _ & Hin).
    by destruct (Hin HT) as (HT' & _).
  - destruct (isInTransaction s) eqn:HI; [by specialize (Hinv eq_refl)|].
    destruct (stays_idle_client m Hc _ _ _ Hm) as (ev & _ & Hidle).
    destruct Hidle as [_ HI']; [by split|]. congruence.
Qed.

(** X9.  An outermost [transactional] whose function has made no write is
    that function and nothing more: the result or the error of the
    function comes out as it is, no call is added to those of the
    function, and the flags are cleared. *)
Theorem transactional_without_write {A} (func : M A) (s : State) (r : Res A)
    (s1 : State) :
  isTransactional s = false → func (entered s) = (r, s1) →
  isInTransaction s1 = false →
  transactional func s = (r, cleared s1) ∧ trace (cleared s1) = trace s1.
Proof.
  intros HT Hf HI. split; [|apply cleared_trace].
  rewrite transactional_outermost by done.
  unfold try_catch, transactional_try.
  destruct r as [a|e].
  - rewrite (bind_ok _ _ _ _ _ Hf).
    rewrite (bind_ok _ _ _ _ _ (cls_get_run _ _)).
    unfold isInTransaction in HI. by rewrite HI.
  - rewrite (bind_raise _ _ _ _ _ Hf).
    by rewrite transactional_catch_run, HI.
Qed.

(** X10.  An outermost [transactional] whose function has returned [a]
    with the transaction open calls [commit].  If [commit] raises, or if
    it returns and the notification raises, the [catch] block runs: the
    call calls [rollback] and raises, the error at hand or that of
    [rollback].  Only when both have returned does the call return, and
    it returns [a]. *)
Theorem transactional_after_write {A} (func : M A) (s : State) (a : A) (s1 : State) :
  isTransactional s = false → func (entered s) = (Ok a, s1) →
  isInTransaction s1 = true →
  (∀ e s2, commit s1 = (Raise e, s2) →
     transactional func s =
       (let (rr, s3) := rollback s2 in
        (Raise match rr with Ok _ => e | Raise e' => e' end, cleared s3))) ∧
  (∀ ri s2 e w, commit s1 = (Ok ri, s2) →
     ws_sendPingToAllClients (world s2) = (Raise e, w) →
     transactional func s =
       (let (rr, s3) := rollback (with_call EvPing w s2) in
        (Raise match rr with Ok _ => e | Raise e' => e' end, cleared s3))) ∧
  (∀ ri s2 w, commit s1 = (Ok ri, s2) →
     ws_sendPingToAllClients (world s2) = (Ok tt, w) →
     transactional func s = (Ok a, cleared (with_call EvPing w s2))).
Proof.
  intros HT Hf HI.
  assert (∀ rc s2, commit s1 = (rc, s2) → isInTransaction s2 = true) as Hopen.
  { intros rc s2 Hc. destruct (keeps_cls_verb _ _ _ _ Hc) as (ev & _ & Hcls).
    unfold keeps_cls in Hcls. unfold isInTransaction, flag in *. by rewrite Hcls. }
  assert (transactional_try func (entered s) =
          ((commit ;; sendPingToAllClients) ;; ret a) s1) as Htry.
  { unfold transactional_try. rewrite (bind_ok _ _ _ _ _ Hf).
    rewrite (bind_ok _ _ _ _ _ (cls_get_run _ _)).
    unfold isInTransaction in HI. by rewrite HI. }
  rewrite transactional_outermost by done.
  unfold try_catch. rewrite Htry.
  split; [|split].
  - intros e s2 Hc.
    rewrite (bind_raise _ _ _ _ _ (bind_raise _ _ _ _ _ Hc)).
    rewrite transactional_catch_run, (Hopen _ _ Hc).
    by destruct (rollback s2) as [rr s3].
  - intros ri s2 e w Hc Hp.
    assert (sendPingToAllClients s2 = (Raise e, with_call EvPing w s2)) as Hping
      by (unfold sendPingToAllClients, call; by rewrite Hp).
    assert ((commit ;; sendPingToAllClients) s1 = (Raise e, with_call EvPing w s2))
      as Hboth by (by rewrite (bind_ok _ _ _ _ _ Hc)).
    rewrite (bind_raise _ _ _ _ _ Hboth).
    rewrite transactional_catch_run.
    change (isInTransaction (with_call EvPing w s2)) with (isInTransaction s2).
    rewrite (Hopen _ _ Hc). by destruct (rollback _) as [rr s3].
  - intros ri s2 w Hc Hp.
    assert (sendPingToAllClients s2 = (Ok tt, with_call EvPing w s2)) as Hping
      by (unfold sendPingToAllClients, call; by rewrite Hp).
    assert ((commit ;; sendPingToAllClients) s1 = (Ok tt, with_call EvPing w s2))
      as Hboth by (by rewrite (bind_ok _ _ _ _ _ Hc)).
    by rewrite (bind_ok _ _ _ _ _ Hboth).
Qed.

End CoordinatorFurther.

Lemma callers_in_scope_never_commit_witness :
  let E := sample_engine [] true in
  let s := entered (start (Some 0) []) in
  let m := transactional (execute "UPDATE notes SET title = 'x'" (PArr [])) in
  client m ∧ isTransactional s = true ∧
  isTransactional (m s).2 = true ∧
  ∃ ev, trace (m s).2 = trace s ++ ev ∧ count COMMIT ev = 0.
Proof.
  intros E s m.
  assert (client m) as Hc by (apply client_transactional, client_execute).
  split; [exact Hc|]. split; [reflexivity|].
  destruct (callers_in_scope_never_commit m s Hc eq_refl)
    as (HT & _ & ev & Tr & C & _).
  split; [exact HT|]. exists ev. split; assumption.
Defined.

Lemma callers_return_to_idle_witness :
  let E := sample_engine [] true in
  let s := start (Some 0) [] in
  let m := transactional (execute "UPDATE notes SET title = 'x'" (PArr [])) in
  client m ∧ isTransactional s = false ∧ isInTransaction s = false ∧
  isTransactional (m s).2 = false ∧ isInTransaction (m s).2 = false.
Proof.
  intros E s m.
  assert (client m) as Hc by (apply client_transactional, client_execute).
  split; [exact Hc|]. split; [reflexivity|]. split; [reflexivity|].
  exact (callers_return_to_idle m s Hc eq_refl eq_refl).
Defined.

Lemma callers_keep_flag_invariant_witness :
  let E := sample_engine [] true in
  let s := entered (start (Some 0) []) in
  let m := execute "UPDATE notes SET title = 'x'" (PArr []) in
  client m ∧ (isInTransaction s = true → isTransactional s = true) ∧
  isInTransaction (m s).2 = true ∧ isTransactional (m s).2 = true.
Proof.
  intros E s m.
  assert (isInTransaction s = true → isTransactional s = true) as Hinv
    by (intros _; reflexivity).
  assert (isInTransaction (m s).2 = true) as Hopen by (vm_compute; reflexivity).
  split; [apply client_execute|]. split; [exact Hinv|]. split; [exact Hopen|].
  exact (callers_keep_flag_invariant m s (client_execute _ _) Hinv Hopen).
Defined.

Lemma transactional_without_write_witness :
  let E := sample_engine [] true in
  let s := start (Some 0) [] in
  let func := getRows "SELECT 1" (PArr []) in
  isTransactional s = false ∧
  func (entered s) = (Ok [[("n", VNum 0)]], (func (entered s)).2) ∧
  isInTransaction (func (entered s)).2 = false ∧
  (transactional func s).1 = Ok [[("n", VNum 0)]].
Proof.
  intros E s func.
  assert (func (entered s) = (Ok [[("n", VNum 0)]], (func (entered s)).2)) as Hf
    by (vm_compute; reflexivity).
  assert (isInTransaction (func (entered s)).2 = false) as Hi
    by (vm_compute; reflexivity).
  split; [reflexivity|]. split; [exact Hf|]. split; [exact Hi|].
  destruct (transactional_without_write func s _ _ eq_refl Hf Hi) as [-> _].
  reflexivity.
Defined.

Lemma transactional_after_write_witness :
  let E := sample_engine ["COMMIT"] true in
  let s := start (Some 0) [] in
  let func := execute "UPDATE notes SET title = 'x'" (PArr []) in
  let a := {| changes := 1; lastInsertRowid := 7 |} in
  isTransactional s = false ∧
  func (entered s) = (Ok a, (func (entered s)).2) ∧
  isInTransaction (func (entered s)).2 = true ∧
  (transactional func s).1 = Raise (sample_error "COMMIT").
Proof.
  intros E s func a.
  assert (func (entered s) = (Ok a, (func (entered s)).2)) as Hf
    by (vm_compute; reflexivity).
  assert (isInTransaction (func (entered s)).2 = true) as Hi
    by (vm_compute; reflexivity).
  split; [reflexivity|]. split; [exact Hf|]. split; [exact Hi|].
  destruct (transactional_after_write func s a _ eq_refl Hf Hi) as (Hfail & _).
  assert (commit (func (entered s)).2
          = (Raise (sample_error "COMMIT"), (commit (func (entered s)).2).2)) as Hc
    by (vm_compute; reflexivity).
  rewrite (Hfail _ _ Hc). vm_compute. reflexivity.
Defined.

(** ** The row helpers *)


(** The value of the first column of the first row, as [getValue] gives
    it. *)
Definition first_value (rows : list Row) : Value :=
  match rows with
  | [] => VNull
  | [] :: _ => VUndefined
  | ((_, v) :: _) :: _ => v
  end.

Section RowHelpers.
Context `{E : Engine}.

(** X12.  The helpers built on [getRows] make the calls of [getRows] and
    no other, and pass its error on as it is.  When [getRows] returns:
    [getRowOrNull] is the first row, or [null] when there is none;
    [getValue] is the value of the first column of the first row, [null]
    when there is no row and [undefined] when the row has no column;
    [getColumn] has one value for each row, the first being what
    [getValue] returns. *)
Theorem row_helpers_project_getRows (q : string) (p : Params) (s : State) :
  (∀ e s', getRows q p s = (Raise e, s') →
     getRowOrNull q p s = (Raise e, s') ∧ getValue q p s = (Raise e, s') ∧
     getColumn q p s = (Raise e, s') ∧ getMap q p s = (Raise e, s')) ∧
  (∀ rows s', getRows q p s = (Ok rows, s') →
     getRowOrNull q p s = (Ok (head rows), s') ∧
     getValue q p s = (Ok (first_value rows), s') ∧
     ∃ col, getColumn q p s = (Ok col, s') ∧ length col = length rows ∧
            (rows ≠ [] → head col = Some (first_value rows))).
Proof.
  split.
  - intros e s' H.
    assert (getRowOrNull q p s = (Raise e, s')) as Hn by (by apply bind_raise).
    split; [done|]. split; [by apply bind_raise|]. split; by apply bind_raise.
  - intros rows s' H.
    assert (getRowOrNull q p s = (Ok (head rows), s')) as Hn.
    { unfold getRowOrNull. rewrite (bind_ok _ _ _ _ _ H). unfold ret.
      by destruct rows. }
    split; [done|]. split.
    + unfold getValue. rewrite (bind_ok _ _ _ _ _ Hn).
      destruct rows as [|[|[k v] row] rows]; try done.
      unfold ret, obj_get_at. simpl. by rewrite decide_True.
    + unfold getColumn. rewrite (bind_ok _ _ _ _ _ H).
      destruct rows as [|row0 rows]; [by exists []|].
      eexists. split; [done|]. split; [by rewrite length_fmap|].
      intros _. destruct row0 as [|[k v] row0]; [done|].
      unfold obj_get_at. simpl. by rewrite decide_True.
Qed.








(** X14.  A text that is the name of a property every object inherits,
    [constructor] for one, is taken by [stmt] to be in the cache: nothing
    is prepared, and what comes back is no statement.  With the
    connection set, [getRows] on such a text calls nothing and raises the
    error of [wrap] around a [TypeError]. *)
Theorem stmt_on_inherited_name (sql : string) (s : State) :
  sql ∈ Object_prototype_names → statementCache s !! sql = None →
  stmt sql s = (Ok NotAStatement, s) ∧
  ∀ c p, dbConnection s = Some c →
    getRows sql p s =
      (Raise (rewrapped (TypeError "stmt(...).all is not a function")),
       with_log (log s ++ [(LError, "Error executing query. Inner exception: "
                   +:+ exn_stack (TypeError "stmt(...).all is not a function")
                   +:+ exn_stack (new_Error ""))]) s).
Proof.
  intros Hin Hnone.
  assert (stmt sql s = (Ok NotAStatement, s)) as Hs.
  { unfold stmt, in_statementCache. unfold bind at 1.
    rewrite (bool_decide_eq_true_2 (sql ∈ Object_prototype_names)) by done.
    rewrite orb_true_r. simpl. unfold bind, ret, statementCache_get.
    by rewrite Hnone. }
  split; [done|]. intros c p Hc.
  apply (wrap_raise_run _ sql s c _ s Hc).
  by rewrite (bind_ok _ _ _ _ _ Hs).
Qed.

End RowHelpers.


Lemma stmt_on_inherited_name_witness :
  let E := sample_engine [] true in
  let s := start (Some 0) [] in
  "constructor" ∈ Object_prototype_names ∧
  statementCache s !! "constructor" = None ∧
  stmt "constructor" s = (Ok NotAStatement, s).
Proof.
  intros E s.
  assert ("constructor" ∈ Object_prototype_names) as Hin
    by (apply (bool_decide_unpack ("constructor" ∈ Object_prototype_names));
        vm_compute; exact I).
  split; [exact Hin|]. split; [reflexivity|].
  exact (proj1 (stmt_on_inherited_name "constructor" s Hin eq_refl)).
Defined.

(** ** The lazy [BEGIN] is attempted once *)

Section BeginOnce.
Context `{E : Engine}.

(** X15.  In every state, calling [startTransactionIfNecessary] a second
    time adds nothing to the first call.  In particular a [BEGIN] that has
    raised is not issued again in the same scope: the flag
    [isInTransaction] was set before the attempt and stays set, so the
    next call returns at once. *)
Theorem startTransactionIfNecessary_once (s : State) :
  (startTransactionIfNecessary ;; startTransactionIfNecessary) s
  = startTransactionIfNecessary s ∧
  (isTransactional s = true → isInTransaction s = false →
   isInTransaction (startTransactionIfNecessary s).2 = true ∧
   startTransactionIfNecessary (startTransactionIfNecessary s).2
   = (Ok tt, (startTransactionIfNecessary s).2)).
Proof.
  assert (isTransactional s = true → isInTransaction s = false →
          isTransactional (startTransactionIfNecessary s).2 = true ∧
          isInTransaction (startTransactionIfNecessary s).2 = true) as Hflags.
  { intros HT HI. rewrite startTransactionIfNecessary_begin by done.
    fold (opened s). unfold bind at 1 2.
    destruct (beginTransaction (opened s)) as [rb s1] eqn:Hb.
    destruct (keeps_cls_verb _ _ _ _ Hb) as (ev & _ & Hcls).
    unfold keeps_cls in Hcls.
    assert (isTransactional s1 = true ∧ isInTransaction s1 = true) as [? ?].
    { unfold isTransactional, isInTransaction, flag. rewrite Hcls. unfold opened.
      fold (flag "isTransactional" (with_cls_ns
              (<["isInTransaction":=true]> (cls_ns s)) s)).
      fold (flag "isInTransaction" (with_cls_ns
              (<["isInTransaction":=true]> (cls_ns s)) s)).
      by rewrite flag_insert_ne, flag_insert_eq. }
    by destruct rb. }
  split.
  - unfold bind at 1.
    destruct (startTransactionIfNecessary s) as [[[]|e] s1] eqn:Hs; [|done].
    apply startTransactionIfNecessary_idle.
    destruct (isTransactional s) eqn:HT, (isInTransaction s) eqn:HI.
    + rewrite startTransactionIfNecessary_idle in Hs by auto.
      injection Hs as <-. auto.
    + right. by apply Hflags.
    + rewrite startTransactionIfNecessary_idle in Hs by auto.
      injection Hs as <-. auto.
    + rewrite startTransactionIfNecessary_idle in Hs by auto.
      injection Hs as <-. auto.
  - intros HT HI. destruct (Hflags HT HI) as [HT1 HI1]. split; [done|].
    apply startTransactionIfNecessary_idle. auto.
Qed.

End BeginOnce.

(** On an engine that rejects [BEGIN], the second write of a scope does
    not issue it again. *)
Lemma failed_BEGIN_is_not_retried :
  let E := sample_engine ["BEGIN"] true in
  let s := entered (start (Some 0) []) in
  let s1 := (startTransactionIfNecessary s).2 in
  (startTransactionIfNecessary s).1 = Raise (sample_error "BEGIN") ∧
  trace s1 = [EvPrepare "BEGIN"; BEGIN] ∧
  startTransactionIfNecessary s1 = (Ok tt, s1).
Proof.
  intros E s s1. split; [vm_compute; reflexivity|].
  split; [vm_compute; reflexivity|].
  exact (proj2 (proj2 (startTransactionIfNecessary_once s) eq_refl eq_refl)).
Defined.

(** ** The text of [insert] *)

(** How many times the character [c] occurs in [s]. *)
Fixpoint count_char (c : ascii) (s : string) : nat :=
  match s with
  | EmptyString => 0
  | String c' s' => (if decide (c' = c) then 1 else 0) + count_char c s'
  end.

Lemma count_char_app c s1 s2 :
  count_char c (s1 +:+ s2) = count_char c s1 + count_char c s2.
Proof. induction s1 as [|c' s1 IH]; simpl; [done|]. rewrite IH. lia. Qed.

Lemma count_char_join c sep (l : list string) :
  count_char c sep = 0 →
  count_char c (join sep l) = sum_list (count_char c <$> l).
Proof.
  intros Hsep. unfold join. induction l as [|x l IH]; [done|].
  destruct l as [|y l]; [simpl; lia|].
  change (String.concat sep (x :: y :: l))
    with (x +:+ sep +:+ String.concat sep (y :: l)).
  rewrite !count_char_app, Hsep, IH. simpl. lia.
Qed.

(** X16.  The text that [insert] builds has one marker [?] for each value
    it binds, when neither the name of the table nor a name of a field
    has the character [?] in it. *)
Theorem insert_query_one_marker_per_value (tableName : string) (rec : Obj)
    (replace : bool) :
  count_char "?" tableName = 0 →
  Forall (λ k, count_char "?" k = 0) (Object_keys rec) →
  count_char "?" (insert_query tableName (Object_keys rec) replace)
  = length (Object_values rec).
Proof.
  intros Ht Hk. unfold insert_query. cbv zeta.
  rewrite !count_char_app, !count_char_join by done. rewrite Ht.
  assert (sum_list (count_char "?" <$> Object_keys rec) = 0) as ->.
  { induction Hk as [|k l Hk0 _ IH]; [done|]. csimpl. rewrite IH. lia. }
  assert (sum_list (count_char "?" <$> ((λ _ : string, "?") <$> Object_keys rec))
          = length (Object_values rec)) as ->.
  { unfold Object_keys, Object_values. rewrite !length_fmap. clear Hk.
    induction rec as [|kv rec IH]; [done|]. csimpl. by rewrite IH. }
  destruct replace; simpl; lia.
Qed.

Lemma insert_query_one_marker_per_value_witness :
  let rec := [("noteId", VStr "n1"); ("title", VStr "x")] in
  count_char "?" "notes" = 0 ∧
  Forall (λ k, count_char "?" k = 0) (Object_keys rec) ∧
  insert_query "notes" (Object_keys rec) false
  = "INSERT  INTO notes(noteId, title) VALUES (?, ?)" ∧
  count_char "?" (insert_query "notes" (Object_keys rec) false) = 2.
Proof.
  intros rec.
  assert (count_char "?" "notes" = 0) as Ht by reflexivity.
  assert (Forall (λ k, count_char "?" k = 0) (Object_keys rec)) as Hk
    by (repeat constructor).
  split; [exact Ht|]. split; [exact Hk|]. split; [reflexivity|].
  exact (insert_query_one_marker_per_value "notes" rec false Ht Hk).
Defined.
